(** * banias frontend publisher: batching and dispatch of events to Pub/Sub

    A shallow embedding of [frontend/publisher/publisher.go]: the dispatch
    loop [Run], the publish task started by [Publish], and the constructor
    [NewPublisher], together with the Go runtime objects they manipulate
    (slices over shared backing arrays, a [time.Timer], a goroutine pool and
    a wait group).  The broker client, the JSON encoder and the logger are
    capabilities of the environment and appear as section variables. *)

From Stdlib Require Import ZArith String Ascii DecimalString DecimalN.
From stdpp Require Import base numbers list strings gmap.

Local Open Scope Z_scope.

(** ** Basic Go data *)

Definition bytes := list Byte.byte.

(** A Go [error] value; the nil error is [None] of [option error]. *)
Definition error := string.

(** [time.Duration]: a signed 64-bit count of nanoseconds. *)
Definition Duration := Z.

(** [int64] arithmetic wraps around. *)
Definition wrap64 (z : Z) : Z := (z + 2 ^ 63) mod 2 ^ 64 - 2 ^ 63.

(** [gpubsub.Message]; [Run] only ever sets [Data], every other field keeps
    its zero value. *)
Record Message := mkMessage { Data : bytes }.

Definition zeroMessage : Message := {| Data := [] |}.

(** ** Slices of messages

    A slice is a view (pointer, length, capacity) of a backing array that
    lives in the heap; two slices with the same pointer share their cells.
    Addresses are positions in the list of allocated arrays. *)

Abbreviation Heap := (list (list Message)).

Module Slice.

Record slice := mkSlice { ptr : option nat; len : nat; cap : nat }.

(** The nil slice, [messages = nil]. *)
Definition nil : slice := {| ptr := None; len := 0; cap := 0 |}.

Definition array (h : Heap) (s : slice) : list Message :=
  match ptr s with
  | Some a => default [] (h !! a)
  | None => []
  end.

(** The elements [s[0..len(s))] as they are stored right now. *)
Definition elems (h : Heap) (s : slice) : list Message :=
  take (len s) (array h s).

(** [make([]gpubsub.Message, 0, n)]; a negative capacity panics. *)
Definition make (n : Z) (h : Heap) : option (slice * Heap) :=
  if n <? 0 then None
  else Some ({| ptr := Some (length h); len := 0; cap := Z.to_nat n |},
             h ++ [replicate (Z.to_nat n) zeroMessage]).

Section Append.

(** The capacity the runtime picks when a slice of capacity [old] has to
    grow to hold [need] elements (runtime.growslice). *)
Variable growcap : nat -> nat -> nat.

(** [append(s, m)]: stores in place when there is room, which is visible
    through every slice sharing the array; otherwise copies the elements
    into a fresh array. *)
Definition append (s : slice) (m : Message) (h : Heap) : slice * Heap :=
  let grow :=
    let c := growcap (cap s) (S (len s)) in
    ({| ptr := Some (length h); len := S (len s); cap := c |},
     h ++ [elems h s ++ m :: replicate (c - S (len s)) zeroMessage]) in
  match ptr s with
  | Some a =>
      if (len s <? cap s)%nat
      then ({| ptr := Some a; len := S (len s); cap := cap s |},
            <[a := <[len s := m]> (array h s)]> h)
      else grow
  | None => grow
  end.

End Append.

(** A slice is well formed in a heap when its array is allocated and is
    long enough for its length and capacity. *)
Definition wf (h : Heap) (s : slice) : Prop :=
  match ptr s with
  | Some a => (a < length h)%nat /\ (len s <= length (array h s))%nat
              /\ (cap s <= length (array h s))%nat
  | None => len s = 0%nat /\ cap s = 0%nat
  end.

End Slice.

Export Slice (slice).

(** ** Package types: the inbound events *)

Module types.
Section Types.

(** The values a payload map may hold ([interface{}]). *)
Variable iface : Type.

Record Type_ := mkType {
  EventVersionField : string;
  EventNameField : string
}.

Definition Payload := gmap string iface.

Record Event := mkEvent {
  TypeField : Type_;
  PayloadField : Payload
}.

Record EventMsg := mkEventMsg {
  SenderID : string;
  Event_ : Event
}.

End Types.

(** [strings.Join(elems, sep)]. *)
Fixpoint strings_Join (elems : list string) (sep : string) : string :=
  match elems with
  | [] => ""
  | [e] => e
  | e :: rest => (e ++ sep ++ strings_Join rest sep)%string
  end.

(** [strconv.FormatUint(i, 10)]: the decimal digits of [i], without leading
    zeros, ["0"] for zero. *)
Definition FormatUint10 (i : N) : string :=
  NilZero.string_of_uint (N.to_uint i).

(** The struct [Error]; [Index] is a [*uint64], nil is [None]. *)
Record Error := mkError {
  Detail : string;
  Index : option N
}.

Definition NewError (index : N) (detail : string) : Error :=
  {| Index := Some index; Detail := detail |}.

(** The method [Error()]; it dereferences [Index], so [None] is the panic
    on a nil [Index]. *)
Definition Error_Error (err : Error) : option string :=
  match Index err with
  | Some i =>
      Some (strings_Join ["item "%string; FormatUint10 i; ": "%string;
                          Detail err] "")
  | None => None
  end.

End types.

(** ** Configuration *)

(** Modelled from the spec: the struct [cfg.Config] is declared in package
    [frontend/config], outside the sources at hand; these are the fields the
    publisher reads (section 6, Configuration: maximum batch size, maximum
    flush delay, worker-pool concurrency, idle-reclaim duration, project and
    topic identifiers). *)
Record Config := mkConfig {
  ProjectID : string;
  Topic : string;
  PubsubMaxBatch : Z;
  PubsubMaxPublishDelay : Duration;
  MaxPubSubGoroutinesAmount : Z;
  MaxPubSubGoroutineIdleDuration : Duration
}.

(** ** The flush timer

    A [time.Timer]: at most one pending deadline, and a channel [C] of
    capacity one that holds the tick once the deadline has passed. *)

Module Timer.

Record Timer := mkTimer {
  deadline : option Duration;   (* the pending deadline, when the timer is live *)
  C : bool                      (* a tick is waiting in the channel *)
}.

Definition NewTimer (d : Duration) : Timer :=
  {| deadline := Some d; C := false |}.

(** [t.Reset(d)] rearms the timer; a tick already in the channel stays. *)
Definition Reset (d : Duration) (t : Timer) : Timer :=
  {| deadline := Some d; C := C t |}.

(** The runtime fires a live timer: the deadline is consumed and a tick is
    put in the channel (dropped when one is already waiting). *)
Definition expire (t : Timer) : option Timer :=
  match deadline t with
  | Some _ => Some {| deadline := None; C := true |}
  | None => None
  end.

(** [<-t.C] is ready only when a tick is waiting. *)
Definition recv (t : Timer) : option Timer :=
  if C t then Some {| deadline := deadline t; C := false |} else None.

(** Number of live deadlines. *)
Definition live (t : Timer) : nat :=
  match deadline t with Some _ => 1 | None => 0 end.

End Timer.

Export Timer (Timer).

(** ** What the publisher does to its environment *)

Inductive Level := Debug | Info | Error.

(** zap fields attached to a log entry. *)
Inductive Field :=
| FError (e : error)
| FInt (key : string) (v : Z)
| FInt64 (key : string) (v : Z)
| FString (key : string) (v : string).

(** The handle [*gpubsub.PublishResult] returned by [topic.Publish]: the
    position of the message among all messages given to the topic. *)
Definition PublishResult := nat.

(** The closure [Publish] hands to the pool: it captures the slice header
    and the delay, not a copy of the messages. *)
Record Task := mkTask { task_messages : slice; task_maxDelay : Duration }.

Inductive Action :=
| Log (lvl : Level) (msg : string) (fields : list Field)
| WgAdd (n : Z)
| Go (f : Task) (batch : list Message)
      (* [c.gp.Go(func() {...})]; [batch] is what the slice held then *)
| TopicPublish (m : Message) (r : PublishResult)
| ResultGet (r : PublishResult)
| CounterAdd (v : Z)
| TimerReset (d : Duration)
| WgDone
| Observe.

(** Everything outside [Run]'s own local variable. *)
Record World := mkWorld {
  heap : Heap;                 (* backing arrays of all slices *)
  t : Timer;                   (* the timer [t] created by [Run] *)
  pending : list Task;         (* closures accepted by [c.gp], not yet finished *)
  waiting : Z;                 (* counter of [c.wg] *)
  submitted : list Message;    (* messages given to [c.topic.Publish], in order *)
  publishCounter : Z;          (* pubsub_publish_total{function="Publish"} *)
  out : list Action            (* the calls made so far, oldest first *)
}.

Definition world0 : World :=
  {| heap := []; t := Timer.mkTimer None false; pending := []; waiting := 0;
     submitted := []; publishCounter := 0; out := [] |}.

(** *** A state monad over the world *)

Definition M (A : Type) : Type := World -> A * World.

Definition ret {A} (a : A) : M A := fun w => (a, w).

Definition bind {A B} (m : M A) (k : A -> M B) : M B :=
  fun w => let '(a, w') := m w in k a w'.

Declare Scope go_scope.
Delimit Scope go_scope with go.
Notation "'let*' x ':=' m 'in' k" := (bind m (fun x => k))
  (at level 10, x pattern, m at level 100, k at level 200) : go_scope.
Notation "m '>>' k" := (bind m (fun _ => k))
  (at level 190, right associativity) : go_scope.

Definition emit (a : Action) : M unit :=
  fun w => (tt, {| heap := heap w; t := t w; pending := pending w; waiting := waiting w;
                   submitted := submitted w; publishCounter := publishCounter w;
                   out := out w ++ [a] |}).

Definition with_heap {A} (f : Heap -> A * Heap) : M A :=
  fun w => let '(a, h) := f (heap w) in
           (a, {| heap := h; t := t w; pending := pending w; waiting := waiting w;
                  submitted := submitted w; publishCounter := publishCounter w;
                  out := out w |}).

Definition set_t (f : Timer -> Timer) : M unit :=
  fun w => (tt, {| heap := heap w; t := f (t w); pending := pending w; waiting := waiting w;
                   submitted := submitted w; publishCounter := publishCounter w;
                   out := out w |}).

Definition set_pending (f : list Task -> list Task) : M unit :=
  fun w => (tt, {| heap := heap w; t := t w; pending := f (pending w); waiting := waiting w;
                   submitted := submitted w; publishCounter := publishCounter w;
                   out := out w |}).

Definition set_waiting (f : Z -> Z) : M unit :=
  fun w => (tt, {| heap := heap w; t := t w; pending := pending w; waiting := f (waiting w);
                   submitted := submitted w; publishCounter := publishCounter w;
                   out := out w |}).

Definition set_counter (f : Z -> Z) : M unit :=
  fun w => (tt, {| heap := heap w; t := t w; pending := pending w; waiting := waiting w;
                   submitted := submitted w; publishCounter := f (publishCounter w);
                   out := out w |}).

(** [c.topic.Publish(ctx, &m)]: the message joins the topic's queue and a
    handle for its outcome comes back at once. *)
Definition topic_Publish (m : Message) : M PublishResult :=
  fun w => let r := length (submitted w) in
           (r, {| heap := heap w; t := t w; pending := pending w; waiting := waiting w;
                  submitted := submitted w ++ [m]; publishCounter := publishCounter w;
                  out := out w ++ [TopicPublish m r] |}).

Definition zap (lvl : Level) (msg : string) (fields : list Field) : M unit :=
  emit (Log lvl msg fields).

Definition t_Reset (d : Duration) : M unit :=
  (set_t (Timer.Reset d) >> emit (TimerReset d))%go.

Definition wg_Add (n : Z) : M unit :=
  (set_waiting (fun k => k + n) >> emit (WgAdd n))%go.

Definition wg_Done : M unit :=
  (set_waiting (fun k => k - 1) >> emit WgDone)%go.

(** [len(messages)] and the elements of a slice, read from the heap. *)
Definition read (s : slice) : M (list Message) :=
  fun w => (Slice.elems (heap w) s, w).

(** ** Capabilities of the environment

    What the publisher calls but does not implement: the JSON encoder, the
    Go runtime's slice growth, the Pub/Sub client and its publish results,
    and the opaque handles it is constructed with. *)

Class Env := {
  (** The values a payload map may hold ([interface{}]). *)
  iface : Type;
  (** [ffjson.Marshal(event)]. *)
  Marshal : types.EventMsg iface -> bytes + error;
  (** runtime.growslice, see [Slice.append]. *)
  growcap : nat -> nat -> nat;
  (** [r.Get(ctx)]: the server-assigned id and the error of one publish. *)
  Get : PublishResult -> string * option error;
  (** The Pub/Sub client used by [createTopicIfNotExists]. *)
  Client : Type;
  TopicHandle : Type;
  NewClient : string -> Client + error;
  Client_Topic : Client -> string -> TopicHandle;
  Topic_Exists : TopicHandle -> bool * option error;
  Client_CreateTopic : Client -> string -> option TopicHandle * option error;
  (** The channel [bqEvents] and the [*zap.Logger], as opaque handles. *)
  Chan : Type;
  Logger : Type
}.

Abbreviation EventMsg := (types.EventMsg iface).

(** [pool.NewGoPool(maxGoroutinesAmount, maxGoroutineIdleDuration)]. *)
Record GoPool := NewGoPool {
  maxGoroutinesAmount : Z;
  maxGoroutineIdleDuration : Duration
}.

(** [new(sync.WaitGroup)] is the zero wait group. *)
Record WaitGroup := mkWaitGroup { counter : Z }.
Definition new_WaitGroup : WaitGroup := {| counter := 0 |}.

(** ** The publisher *)

Section Publisher.

Local Open Scope go_scope.

Context `{Env}.

(** The struct [Publisher]; [gpubsubClient] and [client] are never set and
    keep their zero values.  [gp] and [wg] are the objects as created, their
    running state is [pending] and [waiting] of the world. *)
Record Publisher := mkPublisher {
  bqEvents : Chan;
  logger : Logger;
  gp : GoPool;
  config : Config;
  topic : option TopicHandle;   (* [*gpubsub.Topic], nil is [None] *)
  wg : WaitGroup;
  id : Z
}.

(** *** createTopicIfNotExists and NewPublisher *)

Definition createTopicIfNotExists (projectid topic : string)
  : M (option TopicHandle * option error) :=
  match NewClient projectid with
  | inr err =>
      zap Error "Pub/Sub client creation error" [FError err] >>
      ret (None, Some err)
  | inl client =>
      let t := Client_Topic client topic in
      let '(ok, err) := Topic_Exists t in
      match err with
      | Some e =>
          zap Error "Pub/Sub topic exists error" [FError e] >>
          ret (Some t, err)
      | None =>
          if ok then
            zap Info "Topic exists we are all good!" [] >>
            ret (Some t, err)
          else
            let '(t, err) := Client_CreateTopic client topic in
            match err with
            | Some _ => ret (t, err)
            | None => zap Info "New topic created" [] >> ret (t, err)
            end
      end
  end.

(** Returns the pair [(&p, err)]; the first component is the pointer, [None]
    would be a nil pointer. *)
Definition NewPublisher (logger : Logger) (bqEvents : Chan) (config : Config)
    (id : Z) : M (option Publisher * option error) :=
  zap Debug "Creating a new publisher" [FInt "id" id] >>
  let gp := NewGoPool (MaxPubSubGoroutinesAmount config)
                      (MaxPubSubGoroutineIdleDuration config) in
  let* (topic, err) :=
    createTopicIfNotExists (ProjectID config) (Topic config) in
  zap Debug "Done with topic" [] >>
  let p := {| bqEvents := bqEvents; logger := logger; gp := gp;
              config := config; topic := topic; wg := new_WaitGroup;
              id := id |} in
  zap Debug "Done with publisher struct!" [] >>
  match err with
  | Some e => zap Error "Error creating topic" [FError e]
  | None => ret tt
  end >>
  zap Debug "Done with NewPublisher" [] >>
  ret (Some p, err).

(** *** Publish: the publish task *)

(** First loop of the task: every message goes to the topic, one after the
    other, and the handles are collected. *)
Fixpoint publish_all (messages : list Message) (total : Z)
    (results : list PublishResult) : M (Z * list PublishResult) :=
  match messages with
  | [] => ret (total, results)
  | m :: rest =>
      let* r := topic_Publish m in
      publish_all rest (wrap64 (total + 1)) (results ++ [r])
  end.

(** Second loop: wait for each outcome, count and log the failures. *)
Fixpoint get_all (results : list PublishResult) (errnum : Z) : M Z :=
  match results with
  | [] => ret errnum
  | r :: rest =>
      emit (ResultGet r) >>
      let '(id, err) := Get r in
      match err with
      | Some e =>
          zap Error "Error Publishing" [FError e; FString "ID" id] >>
          get_all rest (wrap64 (errnum + 1))
      | None => get_all rest errnum
      end
  end.

(** The closure run by the pool.  The deferred duration observation runs
    last; the counter is fed [float64(total)], kept here as the integer; the
    assignment [messages = nil] only clears the closure's own variable. *)
Definition PublishTask (f : Task) : M unit :=
  let* messages := read (task_messages f) in
  let* (total, results) := publish_all messages 0 [] in
  let* errnum := get_all results 0 in
  set_counter (fun v => v + total) >>
  emit (CounterAdd total) >>
  zap Info "Published " [FInt64 "Success" (wrap64 (total - errnum));
                         FInt64 "Failures" errnum] >>
  t_Reset (task_maxDelay f) >>
  wg_Done >>
  emit Observe.

(** Modelled from the spec: the pool [pool.GoPool] belongs to package
    goutil/pool, outside the sources at hand.  Section 4.3 has it accept
    every closure and run each on a worker later, never dropping one; so
    [c.gp.Go] adds the closure to those waiting to run, and any of them may
    run next (step [LTask] below).  [batch] is a record of what the slice
    holds at the call, for the statements about publish attempts; the
    closure itself keeps the slice only. *)
Definition gp_Go (f : Task) : M unit :=
  let* batch := read (task_messages f) in
  set_pending (fun q => q ++ [f]) >>
  emit (Go f batch).

(** [c.Publish(messages, t, maxDelay)]: registers with the wait group and
    hands the closure to the pool; nothing is published yet. *)
Definition Publish (messages : slice) (maxDelay : Duration) : M unit :=
  wg_Add 1 >>
  gp_Go {| task_messages := messages; task_maxDelay := maxDelay |}.

(** *** Run: the dispatch loop *)

(** The statements before the loop.  [None] is the panic of [make] on a
    negative capacity. *)
Definition Run_start (c : Publisher) : option (slice * World) :=
  let '(_, w) := zap Debug "Starting Run" [] world0 in
  match Slice.make (PubsubMaxBatch (config c)) (heap w) with
  | None => None
  | Some (messages, h) =>
      Some (messages,
            {| heap := h;
               t := Timer.NewTimer (PubsubMaxPublishDelay (config c));
               pending := pending w; waiting := waiting w;
               submitted := submitted w;
               publishCounter := publishCounter w; out := out w |})
  end.

(** [case <-t.C:], after the tick has been received. *)
Definition Run_timer (c : Publisher) (messages : slice) : M slice :=
  if (Slice.len messages =? 0)%nat then
    zap Debug "skipping publish due to no messages" [] >>
    t_Reset (PubsubMaxPublishDelay (config c)) >>
    ret messages
  else
    zap Debug "Calling publish due to time"
        [FInt "Number of message" (Z.of_nat (Slice.len messages));
         FInt "Aggrigator ID" (id c)] >>
    Publish messages (PubsubMaxPublishDelay (config c)) >>
    ret Slice.nil.

(** [case event := <-c.bqEvents:]. *)
Definition Run_event (c : Publisher) (event : EventMsg) (messages : slice)
  : M slice :=
  match Marshal event with
  | inr err =>
      zap Error "Error Marshaling event" [FError err] >>
      ret messages
  | inl buf =>
      let* messages :=
        with_heap (Slice.append growcap messages {| Data := buf |}) in
      if Z.of_nat (Slice.len messages) =? PubsubMaxBatch (config c) then
        zap Debug "Calling publish due to capacity "
            [FInt "Number of message" (Z.of_nat (Slice.len messages));
             FInt "Aggrigator ID" (id c)] >>
        Publish messages (PubsubMaxPublishDelay (config c)) >>
        ret Slice.nil
      else ret messages
  end.

(** *** The running system

    [Run] and the publish tasks share the timer and the heap.  One step is
    one iteration of the loop, one expiry of the timer, or one task running
    to its end (a task touches shared state only to read its batch and, as
    its last but two statement, to reset the timer).  The states inside a
    task, where messages have been given to the topic and their results are
    not yet awaited or counted, are therefore not states of this system:
    what is stated of every reachable state concerns what a task writes at
    one point, or states in which no task is outstanding. *)

Record State := mkState { messages : slice; world : World }.

Inductive Label :=
| LEvent (event : EventMsg)   (* the select takes an event from [bqEvents] *)
| LTimer                      (* the select takes the tick from [t.C] *)
| LExpire                     (* the deadline of [t] passes *)
| LTask (k : nat).            (* the [k]-th pending closure runs *)

Definition lift (m : M slice) (w : World) : State :=
  let '(s, w') := m w in {| messages := s; world := w' |}.

Definition step (c : Publisher) (st : State) (l : Label) : option State :=
  let w := world st in
  match l with
  | LEvent event => Some (lift (Run_event c event (messages st)) w)
  | LTimer =>
      match Timer.recv (t w) with
      | Some t' =>
          Some (lift (set_t (fun _ => t') >> Run_timer c (messages st)) w)
      | None => None
      end
  | LExpire =>
      match Timer.expire (t w) with
      | Some t' => Some (lift (set_t (fun _ => t') >> ret (messages st)) w)
      | None => None
      end
  | LTask k =>
      match pending w !! k with
      | Some f =>
          Some (lift (set_pending (delete k) >> PublishTask f >>
                      ret (messages st)) w)
      | None => None
      end
  end.

Fixpoint run (c : Publisher) (st : State) (ls : list Label) : option State :=
  match ls with
  | [] => Some st
  | l :: ls' =>
      match step c st l with
      | Some st' => run c st' ls'
      | None => None
      end
  end.

(** The state after [Run] has gone through the steps [ls]. *)
Definition exec (c : Publisher) (ls : list Label) : option State :=
  match Run_start c with
  | Some (s, w) => run c {| messages := s; world := w |} ls
  | None => None
  end.

(** *** Observations *)

(** The publish attempts so far: the slice handed over and what it held. *)
Definition attempts (w : World) : list (slice * list Message) :=
  omap (fun a => match a with
                 | Go f batch => Some (task_messages f, batch)
                 | _ => None
                 end) (out w).

Definition batches (w : World) : list (list Message) := (attempts w).*2.

(** The timer resets so far. *)
Definition resets (acts : list Action) : list Duration :=
  omap (fun a => match a with TimerReset d => Some d | _ => None end) acts.

(** The messages of the events [Run] has serialized, in arrival order. *)
Definition accepted (ls : list Label) : list Message :=
  omap (fun l => match l with
                 | LEvent event =>
                     match Marshal event with
                     | inl buf => Some {| Data := buf |}
                     | inr _ => None
                     end
                 | _ => None
                 end) ls.

(** The ticks [Run] found the batch empty at. *)
Definition skipped (acts : list Action) : nat :=
  length (omap (fun a => match a with
                         | Log Debug msg _ =>
                             if String.eqb msg "skipping publish due to no messages"
                             then Some tt else None
                         | _ => None
                         end) acts).

(** What a task adds to [out] while it submits [ms], the topic holding
    [base] messages before. *)
Definition publish_actions (base : nat) (ms : list Message) : list Action :=
  imap (fun i m => TopicPublish m (base + i)%nat) ms.

(** What the task adds to [out] while it awaits [results]. *)
Definition get_actions (results : list PublishResult) : list Action :=
  results ≫= (fun r =>
    ResultGet r ::
    match (Get r).2 with
    | Some e => [Log Error "Error Publishing" [FError e; FString "ID" (Get r).1]]
    | None => []
    end).

(** [n] increments of an [int64]. *)
Definition incr64 (n : nat) (z : Z) : Z :=
  Nat.iter n (fun z => wrap64 (z + 1)) z.

Definition is_TopicPublish (a : Action) : bool :=
  match a with TopicPublish _ _ => true | _ => false end.

(** The handles awaited, in the order of the [Get] calls. *)
Definition awaited (acts : list Action) : list PublishResult :=
  omap (fun a => match a with ResultGet r => Some r | _ => None end) acts.

(** The errors among the outcomes of [results]. *)
Definition errors (results : list PublishResult) : list error :=
  omap (fun r => (Get r).2) results.

(** What the task has added to [out]. *)
Definition added (w w' : World) : list Action :=
  drop (length (out w)) (out w').

(** *** The steps as a relation

    One constructor per path through [step]; [step_Step] and [Step_step]
    below show that the relation is exactly what [step] computes. *)

Definition flush_task (c : Publisher) (s : slice) : Task :=
  {| task_messages := s; task_maxDelay := PubsubMaxPublishDelay (config c) |}.

Inductive Step (c : Publisher) : State -> Label -> State -> Prop :=
| Step_drop s w event err :
    Marshal event = inr err ->
    Step c (mkState s w) (LEvent event)
      (mkState s
         {| heap := heap w; t := t w; pending := pending w;
            waiting := waiting w; submitted := submitted w;
            publishCounter := publishCounter w;
            out := out w ++ [Log Error "Error Marshaling event" [FError err]] |})
| Step_append s w event buf s' h' :
    Marshal event = inl buf ->
    Slice.append growcap s {| Data := buf |} (heap w) = (s', h') ->
    Z.of_nat (Slice.len s') <> PubsubMaxBatch (config c) ->
    Step c (mkState s w) (LEvent event)
      (mkState s'
         {| heap := h'; t := t w; pending := pending w;
            waiting := waiting w; submitted := submitted w;
            publishCounter := publishCounter w; out := out w |})
| Step_full s w event buf s' h' :
    Marshal event = inl buf ->
    Slice.append growcap s {| Data := buf |} (heap w) = (s', h') ->
    Z.of_nat (Slice.len s') = PubsubMaxBatch (config c) ->
    Step c (mkState s w) (LEvent event)
      (mkState Slice.nil
         {| heap := h'; t := t w;
            pending := pending w ++ [flush_task c s'];
            waiting := waiting w + 1; submitted := submitted w;
            publishCounter := publishCounter w;
            out := out w ++
              [Log Debug "Calling publish due to capacity "
                 [FInt "Number of message" (Z.of_nat (Slice.len s'));
                  FInt "Aggrigator ID" (id c)];
               WgAdd 1;
               Go (flush_task c s') (Slice.elems h' s')] |})
| Step_skip s w t' :
    Timer.recv (t w) = Some t' ->
    Slice.len s = 0%nat ->
    Step c (mkState s w) LTimer
      (mkState s
         {| heap := heap w;
            t := Timer.Reset (PubsubMaxPublishDelay (config c)) t';
            pending := pending w; waiting := waiting w;
            submitted := submitted w; publishCounter := publishCounter w;
            out := out w ++
              [Log Debug "skipping publish due to no messages" [];
               TimerReset (PubsubMaxPublishDelay (config c))] |})
| Step_tick s w t' :
    Timer.recv (t w) = Some t' ->
    Slice.len s <> 0%nat ->
    Step c (mkState s w) LTimer
      (mkState Slice.nil
         {| heap := heap w; t := t';
            pending := pending w ++ [flush_task c s];
            waiting := waiting w + 1; submitted := submitted w;
            publishCounter := publishCounter w;
            out := out w ++
              [Log Debug "Calling publish due to time"
                 [FInt "Number of message" (Z.of_nat (Slice.len s));
                  FInt "Aggrigator ID" (id c)];
               WgAdd 1;
               Go (flush_task c s) (Slice.elems (heap w) s)] |})
| Step_expire s w t' :
    Timer.expire (t w) = Some t' ->
    Step c (mkState s w) LExpire
      (mkState s
         {| heap := heap w; t := t'; pending := pending w;
            waiting := waiting w; submitted := submitted w;
            publishCounter := publishCounter w; out := out w |})
| Step_task s w k f :
    pending w !! k = Some f ->
    Step c (mkState s w) (LTask k)
      (mkState s
         {| heap := heap w; t := Timer.Reset (task_maxDelay f) (t w);
            pending := delete k (pending w); waiting := waiting w - 1;
            submitted := submitted w ++ Slice.elems (heap w) (task_messages f);
            publishCounter := publishCounter w
              + incr64 (length (Slice.elems (heap w) (task_messages f))) 0;
            out := out w ++ added w (PublishTask f w).2 |}).

(** The errors of the events [Run] could not serialize, in arrival order,
    and the serialization errors found in the log. *)
Definition rejected (ls : list Label) : list error :=
  omap (fun l => match l with
                 | LEvent event =>
                     match Marshal event with
                     | inl _ => None
                     | inr err => Some err
                     end
                 | _ => None
                 end) ls.

Definition marshal_errors (acts : list Action) : list error :=
  omap (fun a => match a with
                 | Log Error msg [FError err] =>
                     if String.eqb msg "Error Marshaling event"
                     then Some err else None
                 | _ => None
                 end) acts.

(** Two states that are the same except that the first has the entry [a]
    somewhere in [out] which the second has not. *)
Definition same_but_entry (a : Action) (st1 st2 : State) : Prop :=
  messages st1 = messages st2
  /\ heap (world st1) = heap (world st2)
  /\ t (world st1) = t (world st2)
  /\ pending (world st1) = pending (world st2)
  /\ waiting (world st1) = waiting (world st2)
  /\ submitted (world st1) = submitted (world st2)
  /\ publishCounter (world st1) = publishCounter (world st2)
  /\ exists pre post,
       out (world st1) = pre ++ a :: post /\ out (world st2) = pre ++ post.

(** *** Invariants of the running system *)

(** The heap side: the open buffer and every batch handed over are backed
    by different arrays, each batch still holds what it held at the
    hand-over, and batches and buffer together are [acc]. *)
Definition inv_heap (acc : list Message) (st : State) : Prop :=
  let w := world st in
  Slice.wf (heap w) (messages st)
  /\ Forall (fun sb => exists a, Slice.ptr sb.1 = Some a
                       /\ (a < length (heap w))%nat
                       /\ Slice.ptr sb.1 <> Slice.ptr (messages st)
                       /\ Slice.elems (heap w) sb.1 = sb.2) (attempts w)
  /\ NoDup (Slice.ptr <$> (attempts w).*1)
  /\ concat (batches w) ++ Slice.elems (heap w) (messages st) = acc.

(** The size side. *)
Definition inv_size (c : Publisher) (st : State) : Prop :=
  Z.of_nat (Slice.len (messages st)) < PubsubMaxBatch (config c)
  /\ Forall (fun b => 1 <= Z.of_nat (length b) <= PubsubMaxBatch (config c))
            (batches (world st)).

(** The timer side. *)
Definition inv_timer (c : Publisher) (st : State) : Prop :=
  let w := world st in
  let d := PubsubMaxPublishDelay (config c) in
  (Timer.live (t w) = 1%nat \/ Timer.C (t w) = true \/ pending w <> [])
  /\ Forall (fun f => task_maxDelay f = d) (pending w)
  /\ Forall (fun d' => d' = d) (resets (out w))
  /\ (length (resets (out w)) + length (pending w)
      = length (attempts w) + skipped (out w))%nat.

End Publisher.

(** ** Accounting of messages and tasks *)

Section Accounting.

Context `{Env}.

(** What the closures still waiting in the pool hold. *)
Definition pending_batches (w : World) : list (list Message) :=
  (fun f => Slice.elems (heap w) (task_messages f)) <$> pending w.

(** Every waiting closure stems from a publish attempt, and the batches of
    all attempts are those already given to the topic and those waiting. *)
Definition inv_conserve (st : State) : Prop :=
  let w := world st in
  exists bs,
    Forall2 (fun f b => (task_messages f, b) ∈ attempts w) (pending w) bs
    /\ concat (batches w) ≡ₚ submitted w ++ concat bs.

(** The errors a task has logged for failed publishes. *)
Definition publish_error_logs (acts : list Action) : list error :=
  omap (fun a => match a with
                 | Log Error msg (FError e :: _) =>
                     if String.eqb msg "Error Publishing" then Some e else None
                 | _ => None
                 end) acts.

(** The log entries of level [Error]. *)
Definition error_entries (acts : list Action) : list Action :=
  omap (fun a => match a with Log Error _ _ => Some a | _ => None end) acts.

(** The calls to the broker among the actions. *)
Definition broker_calls (acts : list Action) : list Action :=
  omap (fun a => match a with
                 | TopicPublish _ _ | ResultGet _ => Some a
                 | _ => None
                 end) acts.

(** The ticks the loop has taken from [t.C]. *)
Definition ticks_taken (ls : list Label) : nat :=
  length (omap (fun l => match l with LTimer => Some tt | _ => None end) ls).

End Accounting.

(** ** A concrete environment, used to run the model on examples *)

Module Sample.

Definition gc (old need : nat) : nat := Nat.max need (2 * old).

Definition event (sender : string) : types.EventMsg nat :=
  types.mkEventMsg nat sender
    (types.mkEvent nat (types.mkType "1" "click") ∅).

(** Events of sender ["B"] cannot be encoded. *)
Definition marshal (e : types.EventMsg nat) : bytes + error :=
  if String.eqb (types.SenderID nat e) "B"
  then inr "json: unsupported type"%string
  else inl (String.list_byte_of_string (types.SenderID nat e)).

(** The second message ever given to the topic fails. *)
Definition get (r : PublishResult) : string * option error :=
  if (r =? 1)%nat then (""%string, Some "rpc error"%string)
  else ("m"%string, None).

Definition env : Env := {|
  iface := nat;
  Marshal := marshal;
  growcap := gc;
  Get := get;
  Client := unit;
  TopicHandle := string;
  NewClient := fun p => if String.eqb p "" then inr "no project"%string else inl tt;
  Client_Topic := fun _ name => name;
  Topic_Exists := fun _ => (false, Some "permission denied"%string);
  Client_CreateTopic := fun _ name => (Some name, None);
  Chan := unit;
  Logger := unit
|}.

Definition cfg (maxBatch : Z) : Config :=
  {| ProjectID := "p"; Topic := "events"; PubsubMaxBatch := maxBatch;
     PubsubMaxPublishDelay := 100; MaxPubSubGoroutinesAmount := 4;
     MaxPubSubGoroutineIdleDuration := 10 |}.

Definition publisher (maxBatch : Z) : @Publisher env :=
  @mkPublisher env tt tt (NewGoPool 4 10) (cfg maxBatch)
    (Some "events"%string) new_WaitGroup 7.

Definition A := event "A".
Definition B := event "B".
Definition C := event "C".
Definition msg (sender : string) : Message :=
  {| Data := String.list_byte_of_string sender |}.

(** A batch of three messages handed to a task, nothing published yet. *)
Definition task3 : Task :=
  {| task_messages := {| Slice.ptr := Some 0%nat; Slice.len := 3;
                         Slice.cap := 3 |};
     task_maxDelay := 100 |}.

Definition world3 : World :=
  {| heap := [[msg "A"; msg "C"; msg "D"]];
     t := Timer.NewTimer 100; pending := [task3]; waiting := 1;
     submitted := []; publishCounter := 0; out := [] |}.

End Sample.

(** * Properties *)

(** ** Slices *)

Section SliceFacts.

Import Slice.
Variable gc : nat -> nat -> nat.

Lemma elems_length h s : wf h s -> length (elems h s) = len s.
Proof.
  unfold wf, elems, array. intros Hwf. rewrite length_take.
  destruct (ptr s); [destruct Hwf as (_ & ? & _) | destruct Hwf]; lia.
Qed.

Lemma make_spec n h s h' :
  make n h = Some (s, h') ->
  0 <= n /\ wf h' s /\ elems h' s = [] /\ len s = 0%nat
  /\ ptr s = Some (length h) /\ length h' = S (length h).
Proof.
  unfold make. destruct (Z.ltb_spec n 0); [done|].
  intros [= <- <-]. unfold wf, elems, array; simpl.
  rewrite length_app, lookup_app_r, Nat.sub_diag by lia; simpl.
  rewrite length_replicate. repeat split; lia.
Qed.

Lemma append_len s m h s' h' :
  append gc s m h = (s', h') -> len s' = S (len s).
Proof.
  unfold append. destruct (ptr s); [destruct (_ <? _)%nat|];
    intros [= <- <-]; done.
Qed.

Lemma append_elems s m h s' h' :
  wf h s -> append gc s m h = (s', h') -> elems h' s' = elems h s ++ [m].
Proof.
  intros Hwf Happ. pose proof (elems_length _ _ Hwf) as Hlen.
  assert (Hgrow : forall c,
    take (S (len s)) (elems h s ++ m :: replicate c zeroMessage)
    = elems h s ++ [m]).
  { intros c. change (m :: ?l) with ([m] ++ l). rewrite app_assoc.
    rewrite take_app_length'; [done|]. rewrite length_app; simpl; lia. }
  revert Happ Hwf Hlen. unfold append, wf, elems, array.
  destruct (ptr s) as [a|] eqn:Hp.
  - destruct (Nat.ltb_spec (len s) (cap s)); intros [= <- <-]; simpl.
    + intros (Ha & Hl & Hc) _.
      rewrite list_lookup_insert_eq by done. simpl.
      destruct (h !! a) as [arr|] eqn:Harr; simpl in *; [|lia].
      rewrite (take_S_r _ _ m).
      * by rewrite take_insert_ge by lia.
      * apply list_lookup_insert_eq. lia.
    + intros _ _. rewrite lookup_app_r, Nat.sub_diag by lia. simpl.
      specialize (Hgrow (gc (cap s) (S (len s)) - S (len s))%nat).
      unfold elems, array in Hgrow. by rewrite Hp in Hgrow.
  - intros [= <- <-] _ _; simpl.
    rewrite lookup_app_r, Nat.sub_diag by lia. simpl.
    specialize (Hgrow (gc (cap s) (S (len s)) - S (len s))%nat).
    unfold elems, array in Hgrow. by rewrite Hp in Hgrow.
Qed.

Lemma append_wf s m h s' h' :
  wf h s -> append gc s m h = (s', h') -> wf h' s'.
Proof.
  intros Hwf Happ. pose proof (elems_length _ _ Hwf) as Hlen.
  revert Happ Hwf. unfold append, wf, array.
  destruct (ptr s) as [a|] eqn:Hp.
  - destruct (Nat.ltb_spec (len s) (cap s)); intros [= <- <-]; simpl.
    + intros (Ha & Hl & Hc). rewrite length_insert.
      rewrite list_lookup_insert_eq by done. simpl.
      rewrite length_insert. repeat split; lia.
    + intros _. rewrite length_app, lookup_app_r, Nat.sub_diag by lia.
      simpl. rewrite length_app, Hlen. simpl. rewrite length_replicate.
      repeat split; lia.
  - intros [= <- <-] _; simpl.
    rewrite length_app, lookup_app_r, Nat.sub_diag by lia.
    simpl. rewrite length_app, Hlen. simpl. rewrite length_replicate.
    repeat split; lia.
Qed.

(** Where the result of [append] points: to the same array, or to one that
    did not exist before. *)
Lemma append_ptr s m h s' h' :
  wf h s -> append gc s m h = (s', h') ->
  (length h <= length h')%nat
  /\ (ptr s' = ptr s \/ ptr s' = Some (length h)).
Proof.
  unfold append, wf. destruct (ptr s) as [a|].
  - destruct (_ <? _)%nat; intros _ [= <- <-]; simpl.
    + rewrite length_insert. auto.
    + rewrite length_app. simpl. split; [lia | auto].
  - intros _ [= <- <-]; simpl. rewrite length_app. simpl. split; [lia | auto].
Qed.

(** [append] writes to the array of its argument and to nothing else. *)
Lemma append_frame s m h s' h' q a :
  append gc s m h = (s', h') ->
  ptr q = Some a -> (a < length h)%nat -> ptr q <> ptr s ->
  elems h' q = elems h q.
Proof.
  unfold append, elems, array. intros Happ Hq Ha Hne. rewrite Hq in *.
  destruct (ptr s) as [b|].
  - destruct (_ <? _)%nat; revert Happ; intros [= <- <-].
    + rewrite list_lookup_insert_ne; [done | congruence].
    + by rewrite lookup_app_l.
  - revert Happ; intros [= <- <-]. by rewrite lookup_app_l.
Qed.

End SliceFacts.

(** ** 64-bit counters *)

Lemma wrap64_small z : - 2 ^ 63 <= z < 2 ^ 63 -> wrap64 z = z.
Proof. intros Hz. unfold wrap64. rewrite Z.mod_small; lia. Qed.

Lemma incr64_small n z :
  0 <= z -> z + Z.of_nat n < 2 ^ 63 -> incr64 n z = z + Z.of_nat n.
Proof.
  unfold incr64. induction n as [|n IH]; intros Hz Hn; simpl; [lia|].
  rewrite IH by lia. rewrite wrap64_small; lia.
Qed.

Lemma incr64_succ_r n z : wrap64 (incr64 n z + 1) = incr64 n (wrap64 (z + 1)).
Proof.
  unfold incr64. change (wrap64 (?a + 1)) with ((fun z => wrap64 (z + 1)) a).
  by rewrite <- Nat.iter_succ_r.
Qed.

(** ** The publish task *)

Section TaskFacts.

Context `{Env}.

Lemma publish_actions_cons base m ms :
  publish_actions base (m :: ms)
  = TopicPublish m base :: publish_actions (S base) ms.
Proof.
  unfold publish_actions. rewrite imap_cons, Nat.add_0_r. f_equal.
  apply imap_ext. intros i x _. simpl. f_equal. lia.
Qed.

Lemma publish_all_spec ms total results w :
  publish_all ms total results w
  = ((incr64 (length ms) total,
      results ++ seq (length (submitted w)) (length ms)),
     {| heap := heap w; t := t w; pending := pending w; waiting := waiting w;
        submitted := submitted w ++ ms; publishCounter := publishCounter w;
        out := out w ++ publish_actions (length (submitted w)) ms |}).
Proof.
  revert total results w. induction ms as [|m ms IH]; intros total results w.
  - destruct w. simpl. unfold ret. by rewrite !app_nil_r.
  - simpl. unfold bind, topic_Publish. rewrite IH. simpl.
    rewrite publish_actions_cons, length_app. simpl.
    rewrite <- !app_assoc, Nat.add_1_r. simpl.
    by rewrite incr64_succ_r.
Qed.

Lemma get_all_spec results errnum w :
  get_all results errnum w
  = (incr64 (length (errors results)) errnum,
     {| heap := heap w; t := t w; pending := pending w; waiting := waiting w;
        submitted := submitted w; publishCounter := publishCounter w;
        out := out w ++ get_actions results |}).
Proof.
  revert errnum w. induction results as [|r rs IH]; intros errnum w.
  - destruct w. simpl. unfold ret. by rewrite app_nil_r.
  - simpl. unfold bind, emit, zap, errors, get_actions. simpl.
    destruct (Get r) as [i [e|]]; simpl; unfold emit; rewrite IH; simpl;
      rewrite <- ?app_assoc; simpl; [|done].
    by rewrite incr64_succ_r.
Qed.

(** The whole task, as one change of the world. *)
Lemma PublishTask_spec f w :
  let ms := Slice.elems (heap w) (task_messages f) in
  let base := length (submitted w) in
  let total := incr64 (length ms) 0 in
  let errnum := incr64 (length (errors (seq base (length ms)))) 0 in
  PublishTask f w
  = (tt,
     {| heap := heap w; t := Timer.Reset (task_maxDelay f) (t w);
        pending := pending w; waiting := waiting w - 1;
        submitted := submitted w ++ ms;
        publishCounter := publishCounter w + total;
        out := out w ++ publish_actions base ms
               ++ get_actions (seq base (length ms))
               ++ [CounterAdd total;
                   Log Info "Published "
                     [FInt64 "Success" (wrap64 (total - errnum));
                      FInt64 "Failures" errnum];
                   TimerReset (task_maxDelay f); WgDone; Observe] |}).
Proof.
  intros ms base total errnum. unfold PublishTask, bind, read.
  rewrite publish_all_spec. simpl. rewrite get_all_spec. simpl.
  unfold set_counter, emit, zap, t_Reset, wg_Done, bind, set_t, set_waiting,
    emit. simpl. by rewrite <- !app_assoc.
Qed.

Lemma added_app w w' acts : out w' = out w ++ acts -> added w w' = acts.
Proof. unfold added. intros ->. by rewrite drop_app_length. Qed.

Lemma awaited_publish_actions base ms : awaited (publish_actions base ms) = [].
Proof.
  revert base. induction ms as [|m ms IH]; intros base; [done|].
  rewrite publish_actions_cons. simpl. apply IH.
Qed.

Lemma awaited_get_actions results : awaited (get_actions results) = results.
Proof.
  unfold awaited, get_actions. induction results as [|r rs IH]; [done|].
  rewrite bind_cons. simpl. rewrite omap_app, IH.
  by destruct ((Get r).2).
Qed.

Lemma get_actions_no_publish results :
  forallb (fun a => negb (is_TopicPublish a)) (get_actions results) = true.
Proof.
  unfold get_actions. induction results as [|r rs IH]; [done|].
  rewrite bind_cons. simpl. rewrite forallb_app, IH.
  by destruct ((Get r).2).
Qed.

Lemma errors_none results :
  (forall r, r ∈ results -> (Get r).2 = None) -> errors results = [].
Proof.
  unfold errors. induction results as [|r rs IH]; intros Hall; [done|].
  simpl. rewrite (Hall r) by left. apply IH. intros r' Hr'. apply Hall.
  by right.
Qed.

Lemma errors_app l1 l2 : errors (l1 ++ l2) = errors l1 ++ errors l2.
Proof. apply omap_app. Qed.

Lemma errors_cons r rs :
  errors (r :: rs)
  = match (Get r).2 with Some e => e :: errors rs | None => errors rs end.
Proof. done. Qed.

(** Exactly one failing outcome among [k] consecutive handles. *)
Lemma errors_one base k i :
  (i < k)%nat ->
  (Get (base + i)%nat).2 <> None ->
  (forall j, (j < k)%nat -> j <> i -> (Get (base + j)%nat).2 = None) ->
  length (errors (seq base k)) = 1%nat.
Proof.
  intros Hi Hfail Hok.
  assert (Hquiet : forall lo n, (forall r, (lo <= r < lo + n)%nat ->
            exists j, r = (base + j)%nat /\ (j < k)%nat /\ j <> i) ->
          errors (seq lo n) = []).
  { intros lo n Hr. apply errors_none. intros r Hin%elem_of_seq.
    destruct (Hr r Hin) as (j & -> & Hj & Hne). by apply Hok. }
  replace k with (i + S (k - S i))%nat by lia.
  rewrite seq_app, errors_app, Hquiet.
  2:{ intros r Hr. exists (r - base)%nat. lia. }
  cbn [seq app]. rewrite errors_cons.
  destruct ((Get (base + i)%nat).2) as [e|]; [|done].
  rewrite Hquiet; [done|].
  intros r Hr. exists (r - base)%nat. lia.
Qed.

End TaskFacts.

Section TaskClaims.

Context `{Env}.

(** C8: the publish task gives every message of its batch to the topic, in
    batch order and without awaiting anything in between; only then does it
    await the outcome handles, each once and in the order of submission. *)
Theorem PublishTask_submits_then_awaits f w :
  exists rest,
    added w (PublishTask f w).2
    = publish_actions (length (submitted w))
        (Slice.elems (heap w) (task_messages f)) ++ rest
    /\ submitted (PublishTask f w).2
       = submitted w ++ Slice.elems (heap w) (task_messages f)
    /\ awaited (publish_actions (length (submitted w))
                  (Slice.elems (heap w) (task_messages f))) = []
    /\ forallb (fun a => negb (is_TopicPublish a)) rest = true
    /\ awaited rest
       = seq (length (submitted w))
             (length (Slice.elems (heap w) (task_messages f))).
Proof.
  rewrite PublishTask_spec. cbn [snd submitted].
  eexists. split; [|split; [done|split; [apply awaited_publish_actions|]]].
  - apply added_app. cbn [out]. reflexivity.
  - split.
    + rewrite forallb_app, get_actions_no_publish. done.
    + unfold awaited. rewrite omap_app. fold (awaited (get_actions
        (seq (length (submitted w))
           (length (Slice.elems (heap w) (task_messages f)))))).
      rewrite awaited_get_actions. simpl. by rewrite app_nil_r.
Qed.

(** C3: when the publish of exactly one message of a batch of K fails, all
    K messages have still been given to the topic, the total counter grows
    by K, and the task reports K-1 successes and 1 failure. *)
Theorem PublishTask_one_failure f w i :
  Z.of_nat (length (Slice.elems (heap w) (task_messages f))) < 2 ^ 63 ->
  (i < length (Slice.elems (heap w) (task_messages f)))%nat ->
  (Get (length (submitted w) + i)%nat).2 <> None ->
  (forall j, (j < length (Slice.elems (heap w) (task_messages f)))%nat ->
             j <> i -> (Get (length (submitted w) + j)%nat).2 = None) ->
  submitted (PublishTask f w).2
  = submitted w ++ Slice.elems (heap w) (task_messages f)
  /\ publishCounter (PublishTask f w).2
     = publishCounter w
       + Z.of_nat (length (Slice.elems (heap w) (task_messages f)))
  /\ exists pre,
       added w (PublishTask f w).2
       = publish_actions (length (submitted w))
           (Slice.elems (heap w) (task_messages f))
         ++ pre
         ++ [CounterAdd
               (Z.of_nat (length (Slice.elems (heap w) (task_messages f))));
             Log Info "Published "
               [FInt64 "Success"
                  (Z.of_nat (length (Slice.elems (heap w) (task_messages f)))
                   - 1);
                FInt64 "Failures" 1];
             TimerReset (task_maxDelay f); WgDone; Observe]
       /\ awaited pre
          = seq (length (submitted w))
                (length (Slice.elems (heap w) (task_messages f))).
Proof.
  intros Hlen Hi Hfail Hok. rewrite PublishTask_spec. cbn [snd submitted
    publishCounter].
  rewrite (errors_one _ _ i) by done.
  rewrite (incr64_small _ 0) by lia.
  rewrite (incr64_small 1 0) by lia. rewrite !Z.add_0_l.
  rewrite wrap64_small by lia.
  split; [done|]. split; [done|].
  eexists. split.
  - apply added_app. cbn [out]. reflexivity.
  - apply awaited_get_actions.
Qed.

End TaskClaims.

(** ** The steps of the running system *)

(** Runs the straight-line monadic code of one branch. *)
Ltac go_run :=
  unfold lift, zap, Publish, gp_Go, wg_Add, wg_Done, t_Reset, read, set_t,
    set_waiting, set_pending, set_counter, with_heap, emit, bind, ret;
  cbn [fst snd heap t pending waiting submitted publishCounter out
       messages world].

Section StepFacts.

Context `{Env}.
Variable c : Publisher.

Lemma step_Step st l st' : step c st l = Some st' -> Step c st l st'.
Proof.
  destruct st as [s w]. unfold step. cbn [world messages].
  destruct l as [event| | |k].
  - intros [= <-]. unfold Run_event, lift, bind.
    destruct (Marshal event) as [buf|err] eqn:Hm.
    + unfold with_heap.
      destruct (Slice.append growcap s {| Data := buf |} (heap w))
        as [s' h'] eqn:Happ. cbn [heap].
      destruct (Z.eqb_spec (Z.of_nat (Slice.len s'))
                  (PubsubMaxBatch (config c))) as [Heq|Hne].
      * go_run. rewrite <- !app_assoc. cbn [app]. by eapply (Step_full c s w).
      * go_run. by eapply (Step_append c s w).
    + go_run. by apply (Step_drop c s w).
  - destruct (Timer.recv (t w)) as [t'|] eqn:Hr; [|done].
    intros [= <-]. unfold Run_timer, lift, bind.
    destruct (Nat.eqb_spec (Slice.len s) 0) as [Heq|Hne].
    + go_run. rewrite <- !app_assoc. cbn [app]. by apply (Step_skip c s w).
    + go_run. rewrite <- !app_assoc. cbn [app]. by apply (Step_tick c s w).
  - destruct (Timer.expire (t w)) as [t'|] eqn:He; [|done].
    intros [= <-]. go_run. by apply (Step_expire c s w).
  - destruct (pending w !! k) as [f|] eqn:Hk; [|done].
    intros [= <-]. unfold lift, bind, set_pending. cbn [fst snd].
    pose proof (Step_task c s w k f Hk) as HS.
    rewrite (PublishTask_spec f) in HS. cbn [snd] in HS.
    erewrite added_app in HS by (cbn [out]; reflexivity).
    rewrite (PublishTask_spec f). cbn -[publish_actions get_actions incr64].
    exact HS.
Qed.

Lemma Step_step st l st' : Step c st l st' -> step c st l = Some st'.
Proof.
  intros HS. destruct (step c st l) as [st''|] eqn:Hs.
  - apply step_Step in Hs. f_equal.
    destruct HS; inversion Hs; subst; try congruence.
  - destruct HS; unfold step in Hs; cbn [world messages] in Hs;
      repeat match goal with
             | Hx : _ = Some _ |- _ => rewrite Hx in Hs
             end; done.
Qed.

End StepFacts.

(** ** Reachable states *)

Section Reachable.

Context `{Env}.
Variable c : Publisher.

Lemma run_app st ls1 ls2 :
  run c st (ls1 ++ ls2)
  = match run c st ls1 with Some st' => run c st' ls2 | None => None end.
Proof.
  revert st. induction ls1 as [|l ls1 IH]; intros st; simpl; [done|].
  destruct (step c st l); [apply IH | done].
Qed.

Lemma exec_snoc ls l :
  exec c (ls ++ [l])
  = match exec c ls with Some st => step c st l | None => None end.
Proof.
  unfold exec. destruct (Run_start c) as [[s w]|]; [|done].
  rewrite run_app. destruct (run c _ ls) as [st|]; [|done].
  simpl. by destruct (step c st l).
Qed.

(** The state [Run] enters its loop with. *)
Lemma Run_start_spec s w :
  Run_start c = Some (s, w) ->
  0 <= PubsubMaxBatch (config c)
  /\ s = {| Slice.ptr := Some 0%nat; Slice.len := 0;
            Slice.cap := Z.to_nat (PubsubMaxBatch (config c)) |}
  /\ w = {| heap := [replicate (Z.to_nat (PubsubMaxBatch (config c)))
                       zeroMessage];
            t := Timer.NewTimer (PubsubMaxPublishDelay (config c));
            pending := []; waiting := 0; submitted := [];
            publishCounter := 0; out := [Log Debug "Starting Run" []] |}.
Proof.
  unfold Run_start, Slice.make. simpl.
  destruct (Z.ltb_spec (PubsubMaxBatch (config c)) 0); [done|].
  intros [= <- <-]. done.
Qed.

Lemma Run_start_ok :
  0 <= PubsubMaxBatch (config c) -> exists s w, Run_start c = Some (s, w).
Proof.
  intros Hmax. unfold Run_start, Slice.make. simpl.
  destruct (Z.ltb_spec (PubsubMaxBatch (config c)) 0); [lia|]. eauto.
Qed.

(** Induction over the steps [Run] has taken. *)
Lemma exec_ind (P : list Label -> State -> Prop) :
  (forall s w, Run_start c = Some (s, w) -> P [] (mkState s w)) ->
  (forall ls st l st',
      exec c ls = Some st -> P ls st -> Step c st l st' -> P (ls ++ [l]) st') ->
  forall ls st, exec c ls = Some st -> P ls st.
Proof.
  intros Hinit Hstep ls. induction ls as [|l ls IH] using rev_ind; intros st.
  - unfold exec. destruct (Run_start c) as [[s w]|] eqn:Hs; [|done].
    intros [= <-]. by apply Hinit.
  - rewrite exec_snoc. destruct (exec c ls) as [st0|] eqn:He; [|done].
    intros Hs%step_Step. eapply Hstep; eauto.
Qed.

(** Events never block: whatever the state, the loop takes the event. *)
Lemma step_event_total st event : exists st', step c st (LEvent event) = Some st'.
Proof. simpl. eauto. Qed.

Lemma accepted_snoc ls l : accepted (ls ++ [l]) = accepted ls ++ accepted [l].
Proof. apply omap_app. Qed.

Lemma attempts_app w w' acts :
  out w' = out w ++ acts ->
  attempts w'
  = attempts w
    ++ omap (fun a => match a with
                      | Go f batch => Some (task_messages f, batch)
                      | _ => None
                      end) acts.
Proof. unfold attempts. intros ->. apply omap_app. Qed.

Lemma batches_app w w' acts :
  out w' = out w ++ acts ->
  batches w'
  = batches w
    ++ omap (fun a => match a with Go _ batch => Some batch | _ => None end)
         acts.
Proof.
  intros Hout. unfold batches. rewrite (attempts_app _ _ _ Hout), fmap_app.
  f_equal. clear. induction acts as [|a acts IH]; [done|].
  destruct a; csimpl; by rewrite ?IH.
Qed.

(** A projection of the actions that ignores what a task does to the
    broker sees nothing in the two loops of the task. *)
Lemma omap_publish_actions {B} (g : Action -> option B) base ms :
  (forall m r, g (TopicPublish m r) = None) ->
  omap g (publish_actions base ms) = [].
Proof.
  intros Hp. revert base. induction ms as [|m ms IH]; intros base; [done|].
  rewrite publish_actions_cons. simpl. by rewrite Hp, IH.
Qed.

Lemma omap_get_actions {B} (g : Action -> option B) rs :
  (forall r, g (ResultGet r) = None) ->
  (forall msg fs, g (Log Error msg fs) = None) ->
  omap g (get_actions rs) = [].
Proof.
  intros Hg Hl. unfold get_actions. induction rs as [|r rs IH]; [done|].
  rewrite bind_cons, omap_app, IH. simpl. rewrite Hg.
  destruct ((Get r).2); simpl; by rewrite ?Hl.
Qed.

Lemma added_PublishTask f w :
  added w (PublishTask f w).2
  = (publish_actions (length (submitted w))
       (Slice.elems (heap w) (task_messages f))
     ++ get_actions (seq (length (submitted w))
          (length (Slice.elems (heap w) (task_messages f)))))
    ++ [CounterAdd (incr64 (length (Slice.elems (heap w) (task_messages f))) 0);
        Log Info "Published "
          [FInt64 "Success"
             (wrap64 (incr64 (length (Slice.elems (heap w) (task_messages f))) 0
              - incr64 (length (errors (seq (length (submitted w))
                  (length (Slice.elems (heap w) (task_messages f)))))) 0));
           FInt64 "Failures"
             (incr64 (length (errors (seq (length (submitted w))
                (length (Slice.elems (heap w) (task_messages f)))))) 0)];
        TimerReset (task_maxDelay f); WgDone; Observe].
Proof.
  rewrite PublishTask_spec. cbn [snd]. apply added_app. cbn [out].
  by rewrite <- app_assoc.
Qed.

End Reachable.

(** ** The invariants hold in every reachable state *)

Section Invariants.

Context `{Env}.
Variable c : Publisher.

Import Slice.

(** Unfolds the observations of a world whose [out] is the old one with
    some actions added. *)
Ltac obs :=
  unfold batches, attempts, resets, skipped in *;
  cbn [out world messages heap t pending] in *;
  rewrite ?added_PublishTask;
  rewrite ?omap_app;
  rewrite ?omap_publish_actions, ?omap_get_actions by done;
  csimpl; rewrite ?app_nil_r.

Lemma append_is_Some s m h s' h' :
  append growcap s m h = (s', h') -> wf h s ->
  exists a, ptr s' = Some a /\ (a < length h')%nat.
Proof.
  intros Happ Hwf. pose proof (append_wf _ _ _ _ _ _ Hwf Happ) as Hwf'.
  revert Happ. unfold append, wf in *.
  destruct (ptr s) as [a|]; [destruct (_ <? _)%nat|]; intros [= <- <-];
    simpl in *; eexists; split; try done; try tauto.
Qed.

(** Handed-over batches survive an [append] to the open buffer, and stay
    apart from it. *)
Lemma append_keeps_batches s m h s' h' (atts : list (slice * list Message)) :
  wf h s -> append growcap s m h = (s', h') ->
  Forall (fun sb => exists a, ptr sb.1 = Some a /\ (a < length h)%nat
                    /\ ptr sb.1 <> ptr s /\ elems h sb.1 = sb.2) atts ->
  Forall (fun sb => exists a, ptr sb.1 = Some a /\ (a < length h')%nat
                    /\ ptr sb.1 <> ptr s' /\ elems h' sb.1 = sb.2) atts.
Proof.
  intros Hwf Happ HF. eapply Forall_impl; [exact HF|]. intros [q b] (a & Hq & Ha & Hne & Hb).
  simpl in *. destruct (append_ptr _ _ _ _ _ _ Hwf Happ) as [Hlen Hptr].
  exists a. split; [done|]. split; [lia|]. split.
  - destruct Hptr as [-> | ->]; [done|]. rewrite Hq. intros [= ->]. lia.
  - rewrite <- Hb. by eapply append_frame.
Qed.

Lemma Forall_ptr_notin (P : slice * list Message -> Prop) s atts :
  Forall (fun sb => exists a : nat, ptr sb.1 = Some a /\ P sb
                    /\ ptr sb.1 <> ptr s) atts ->
  ptr s ∉ ptr <$> atts.*1.
Proof.
  intros Hall Hin. apply list_elem_of_fmap in Hin as (q & Hq & Hin).
  apply list_elem_of_fmap in Hin as (sb & -> & Hin).
  rewrite Forall_forall in Hall. destruct (Hall _ Hin) as (a & _ & _ & Hne).
  done.
Qed.

(** Handing the open buffer over: it joins the batches, and the nil slice
    that replaces it shares an array with none of them. *)
Lemma handover h s (atts : list (slice * list Message)) :
  Forall (fun sb => exists a, ptr sb.1 = Some a /\ (a < length h)%nat
                    /\ ptr sb.1 <> ptr s /\ elems h sb.1 = sb.2) atts ->
  NoDup (ptr <$> atts.*1) ->
  (exists a, ptr s = Some a /\ (a < length h)%nat) ->
  Forall (fun sb => exists a, ptr sb.1 = Some a /\ (a < length h)%nat
                    /\ ptr sb.1 <> ptr nil /\ elems h sb.1 = sb.2)
         (atts ++ [(s, elems h s)])
  /\ NoDup (ptr <$> (atts ++ [(s, elems h s)]).*1).
Proof.
  intros Hatt Hnd (a & Ha & Hlt). split.
  - apply Forall_app. split.
    + eapply Forall_impl; [exact Hatt|]. intros sb (b & Hb & ? & ? & ?).
      exists b. repeat split; try done. by rewrite Hb.
    + apply Forall_singleton. exists a. simpl. by rewrite Ha.
  - rewrite !fmap_app. apply NoDup_app. split; [done|]. split.
    + intros x Hx [->|[]%elem_of_nil]%elem_of_cons. revert Hx.
      apply (Forall_ptr_notin (fun sb => (0 <= 0)%nat) s).
      eapply Forall_impl; [exact Hatt|]. intros sb (b & ? & ? & ? & ?).
      exists b. repeat split; try done.
    + apply NoDup_singleton.
Qed.

Lemma inv_heap_step acc st l st' :
  Step c st l st' -> inv_heap acc st -> inv_heap (acc ++ accepted [l]) st'.
Proof.
  intros HS (Hwf & Hatt & Hnd & Hpart). unfold inv_heap in *.
  destruct HS as [s w event err Hm | s w event buf s' h' Hm Happ Hne
    | s w event buf s' h' Hm Happ Heq | s w t' Hr Hz | s w t' Hr Hnz
    | s w t' He | s w k f Hk]; unfold accepted; obs; rewrite ?Hm;
    rewrite ?app_nil_r.
  - (* an event that cannot be encoded *)
    done.
  - (* an event joins the buffer *)
    split; [by eapply append_wf|].
    split; [by eapply append_keeps_batches|]. split; [done|].
    erewrite append_elems by done. rewrite <- Hpart. by rewrite app_assoc.
  - (* the buffer is full *)
    pose proof (append_keeps_batches _ _ _ _ _ _ Hwf Happ Hatt) as Hatt'.
    destruct (handover h' s' _ Hatt' Hnd (append_is_Some _ _ _ _ _ Happ Hwf))
      as [HF HN].
    split; [done|]. split; [exact HF|]. split; [exact HN|].
    rewrite fmap_app, concat_app. simpl. rewrite !app_nil_r.
    erewrite append_elems by done. rewrite <- Hpart. by rewrite app_assoc.
  - (* a tick, nothing buffered *)
    done.
  - (* a tick flushes the buffer *)
    assert (exists a, ptr s = Some a /\ (a < length (heap w))%nat) as Hs.
    { unfold wf in Hwf. destruct (ptr s) as [a|]; [|lia]. exists a. tauto. }
    destruct (handover (heap w) s _ Hatt Hnd Hs) as [HF HN].
    split; [done|]. split; [exact HF|]. split; [exact HN|].
    rewrite fmap_app, concat_app. simpl. by rewrite !app_nil_r.
  - (* the deadline passes *)
    done.
  - (* a task runs *)
    done.
Qed.

Lemma inv_size_step st l st' :
  0 < PubsubMaxBatch (config c) ->
  Step c st l st' -> wf (heap (world st)) (messages st) ->
  inv_size c st -> inv_size c st'.
Proof.
  intros Hmax HS Hwf [Hlen Hall]. unfold inv_size in *.
  destruct HS as [s w event err Hm | s w event buf s' h' Hm Happ Hne
    | s w event buf s' h' Hm Happ Heq | s w t' Hr Hz | s w t' Hr Hnz
    | s w t' He | s w k f Hk]; obs; try done.
  - (* an event joins the buffer *)
    split; [|done]. rewrite (append_len _ _ _ _ _ _ Happ) in *. lia.
  - (* the buffer is full *)
    split; [done|]. rewrite fmap_app. apply Forall_app. split; [done|].
    apply Forall_singleton. simpl.
    rewrite (elems_length h' s') by (by eapply append_wf).
    rewrite (append_len _ _ _ _ _ _ Happ) in *. lia.
  - (* a tick flushes the buffer *)
    split; [done|]. rewrite fmap_app. apply Forall_app. split; [done|].
    apply Forall_singleton. simpl. rewrite (elems_length _ _ Hwf). lia.
Qed.

Lemma inv_timer_step st l st' :
  Step c st l st' -> inv_timer c st -> inv_timer c st'.
Proof.
  intros HS (Hlive & Hd & Hr & Hcount). unfold inv_timer in *.
  destruct HS as [s w event err Hm | s w event buf s' h' Hm Happ Hne
    | s w event buf s' h' Hm Happ Heq | s w t' Hrecv Hz | s w t' Hrecv Hnz
    | s w t' He | s w k f Hk]; obs; try done.
  - (* the buffer is full *)
    split; [right; right; by intros [_ ?]%app_eq_nil|].
    split; [apply Forall_app; split; [done | by apply Forall_singleton]|].
    split; [done|]. rewrite !length_app in *. simpl. lia.
  - (* a tick, nothing buffered *)
    split; [by left|]. split; [done|].
    split; [apply Forall_app; split; [done | by apply Forall_singleton]|].
    rewrite !length_app in *. simpl. lia.
  - (* a tick flushes the buffer *)
    split; [right; right; by intros [_ ?]%app_eq_nil|].
    split; [apply Forall_app; split; [done | by apply Forall_singleton]|].
    split; [done|]. rewrite !length_app in *. simpl. lia.
  - (* the deadline passes *)
    split; [|done]. right; left. unfold Timer.expire in He.
    destruct (Timer.deadline (t w)); by simplify_eq.
  - (* a task runs *)
    split; [by left|]. split; [by apply Forall_delete|].
    pose proof (lookup_lt_Some _ _ _ Hk) as Hlt.
    split.
    + apply Forall_app. split; [done|]. apply Forall_singleton.
      rewrite Forall_forall in Hd. apply Hd. by eapply list_elem_of_lookup_2.
    + rewrite !length_app, length_delete by eauto. simpl. lia.
Qed.

Lemma inv_start s w :
  Run_start c = Some (s, w) ->
  inv_heap [] (mkState s w) /\ inv_timer c (mkState s w)
  /\ (0 < PubsubMaxBatch (config c) -> inv_size c (mkState s w)).
Proof.
  intros (Hmax & -> & ->)%Run_start_spec.
  unfold inv_heap, inv_timer, inv_size, wf, elems, array. obs.
  rewrite length_replicate. split_and!; try done; try lia.
  - apply NoDup_nil_2.
  - by left.
Qed.

(** Every state [Run] can be in satisfies the three invariants. *)
Lemma reachable_inv ls st :
  exec c ls = Some st ->
  inv_heap (accepted ls) st /\ inv_timer c st
  /\ (0 < PubsubMaxBatch (config c) -> inv_size c st).
Proof.
  revert ls st. apply exec_ind.
  - intros s w Hs. by apply inv_start.
  - intros ls st l st' _ (Hh & Ht & Hs) HS. rewrite accepted_snoc.
    split; [by eapply inv_heap_step|]. split; [by eapply inv_timer_step|].
    intros Hmax. eapply inv_size_step; eauto. apply Hh.
Qed.

End Invariants.

(** ** Filling the buffer *)

Section Filling.

Context `{Env}.
Variable c : Publisher.

Import Slice.

Lemma accepted_event event :
  accepted [LEvent event]
  = match Marshal event with inl buf => [{| Data := buf |}] | inr _ => [] end.
Proof. unfold accepted. simpl. by destruct (Marshal event). Qed.

(** While fewer than [PubsubMaxBatch] events have been serialized, events
    alone cause no publish attempt: they sit in the buffer. *)
Lemma events_below_max evs :
  Z.of_nat (length (accepted (LEvent <$> evs))) < PubsubMaxBatch (config c) ->
  exists st,
    exec c (LEvent <$> evs) = Some st
    /\ batches (world st) = []
    /\ len (messages st) = length (accepted (LEvent <$> evs)).
Proof.
  induction evs as [|e evs IH] using rev_ind.
  - intros Hmax. simpl in Hmax.
    destruct (Run_start_ok c) as (s & w & Hs); [lia|].
    exists (mkState s w). unfold exec. simpl. rewrite Hs.
    apply Run_start_spec in Hs as (_ & -> & ->). done.
  - rewrite fmap_app. change (LEvent <$> [e]) with [LEvent e].
    rewrite accepted_snoc, length_app. intros Hmax.
    destruct IH as (st & He & Hb & Hl); [lia|].
    rewrite exec_snoc, He.
    destruct (step_event_total c st e) as [st' Hs]. exists st'.
    split; [done|]. apply step_Step in Hs. rewrite accepted_event in *.
    destruct st as [s w]. inversion Hs as [? ? ? err Hm | ? ? ? buf s' h' Hm Happ Hne
      | ? ? ? buf s' h' Hm Happ Heq | | | | ]; subst; rewrite Hm in *;
      simpl in *.
    + split; [|lia]. erewrite batches_app by (cbn [out]; reflexivity).
      by rewrite Hb.
    + split; [by rewrite <- Hb|].
      rewrite (append_len _ _ _ _ _ _ Happ). lia.
    + rewrite (append_len _ _ _ _ _ _ Happ) in Heq. lia.
Qed.

(** The event that completes the batch triggers an attempt with everything
    serialized so far. *)
Lemma events_reach_max evs e buf :
  Marshal e = inl buf ->
  Z.of_nat (length (accepted (LEvent <$> (evs ++ [e]))))
    = PubsubMaxBatch (config c) ->
  exists st,
    exec c (LEvent <$> (evs ++ [e])) = Some st
    /\ batches (world st) = [accepted (LEvent <$> (evs ++ [e]))]
    /\ messages st = nil.
Proof.
  intros Hm Hmax.
  rewrite fmap_app in Hmax. change (LEvent <$> [e]) with [LEvent e] in Hmax.
  rewrite accepted_snoc, length_app in Hmax.
  rewrite accepted_event, Hm in Hmax. simpl in Hmax.
  destruct (events_below_max evs) as (st & He & Hb & Hl); [lia|].
  destruct (step_event_total c st e) as [st' Hs].
  assert (Hex : exec c (LEvent <$> (evs ++ [e])) = Some st').
  { rewrite fmap_app. change (LEvent <$> [e]) with [LEvent e].
    by rewrite exec_snoc, He. }
  exists st'. split; [done|].
  destruct (reachable_inv c _ _ Hex) as ((_ & _ & _ & Hpart) & _).
  apply step_Step in Hs. destruct st as [s w].
  inversion Hs as [? ? ? err Hm' | ? ? ? buf' s' h' Hm' Happ Hne
    | ? ? ? buf' s' h' Hm' Happ Heq | | | | ]; subst; simpl in *.
  - congruence.
  - rewrite (append_len _ _ _ _ _ _ Happ) in Hne. lia.
  - split; [|done]. rewrite <- Hpart.
    erewrite batches_app by (cbn [out]; reflexivity).
    rewrite Hb. simpl. unfold elems. simpl. by rewrite !app_nil_r.
Qed.

End Filling.

(** ** The dispatch loop *)

Section RunClaims.

Context `{Env}.
Variable c : Publisher.

Import Slice.

Lemma accepted_events evs bufs :
  Forall2 (fun e b => Marshal e = inl b) evs bufs ->
  accepted (LEvent <$> evs) = mkMessage <$> bufs.
Proof.
  induction 1 as [|e b evs bufs He _ IH]; [done|].
  change (LEvent <$> e :: evs) with ([LEvent e] ++ (LEvent <$> evs)).
  unfold accepted at 1. rewrite omap_app. fold (accepted [LEvent e]).
  fold (accepted (LEvent <$> evs)). rewrite accepted_event, He, IH. done.
Qed.

Lemma exec_events_total evs :
  0 <= PubsubMaxBatch (config c) -> exists st, exec c (LEvent <$> evs) = Some st.
Proof.
  intros Hmax. induction evs as [|e evs IH] using rev_ind.
  - destruct (Run_start_ok c Hmax) as (s & w & Hs). unfold exec.
    rewrite Hs. simpl. eauto.
  - destruct IH as [st He]. rewrite fmap_app.
    change (LEvent <$> [e]) with [LEvent e]. rewrite exec_snoc, He.
    apply step_event_total.
Qed.

(** C1: with no timer tick, N successfully serialized events cause no
    publish attempt while N is below the maximum batch size, and exactly one
    attempt, holding all N messages in arrival order, when N equals it.  The
    maximum is at least one: a batch of no messages is never handed over. *)
Theorem size_flush_exactly_at_max evs bufs :
  0 < PubsubMaxBatch (config c) ->
  Forall2 (fun e b => Marshal e = inl b) evs bufs ->
  exists st,
    exec c (LEvent <$> evs) = Some st
    /\ (Z.of_nat (length evs) < PubsubMaxBatch (config c) ->
        batches (world st) = [])
    /\ (Z.of_nat (length evs) = PubsubMaxBatch (config c) ->
        batches (world st) = [mkMessage <$> bufs]).
Proof.
  intros Hmax Hok. pose proof (accepted_events _ _ Hok) as Hacc.
  assert (Hlen : length (accepted (LEvent <$> evs)) = length evs).
  { rewrite Hacc, length_fmap. symmetry. by eapply Forall2_length. }
  destruct (Z.lt_trichotomy (Z.of_nat (length evs))
              (PubsubMaxBatch (config c))) as [Hlt | [Heq | Hgt]].
  - destruct (events_below_max c evs) as (st & He & Hb & _); [lia|].
    exists st. split; [done|]. split; [done | lia].
  - destruct evs as [|e evs _] using rev_ind; [simpl in Heq; lia|].
    apply Forall2_app_inv_l in Hok as (bufs1 & bufs2 & _ & Hlast & ->).
    inversion Hlast as [|? b ? ? Hm Hnil]; subst. inversion Hnil; subst.
    destruct (events_reach_max c evs e b Hm) as (st & He & Hb & _); [lia|].
    exists st. split; [done|]. split; [lia|]. intros _. by rewrite Hb, Hacc.
  - destruct (exec_events_total evs) as [st He]; [lia|].
    exists st. split; [done|]. split; lia.
Qed.

(** C7, as the code has it: for a configured maximum of at least one, in
    every state the dispatch loop can be in the open batch holds fewer
    messages than the maximum, so that it does not exceed the maximum once
    the next message is appended; nor does any batch handed to a publish
    task.  For a maximum of zero see [zero_max_never_flushes_by_size]. *)
Theorem batch_never_exceeds_max ls st :
  0 < PubsubMaxBatch (config c) ->
  exec c ls = Some st ->
  Z.of_nat (length (elems (heap (world st)) (messages st)))
    < PubsubMaxBatch (config c)
  /\ (forall m s' h',
        append growcap (messages st) m (heap (world st)) = (s', h') ->
        Z.of_nat (length (elems h' s')) <= PubsubMaxBatch (config c))
  /\ Forall (fun b => Z.of_nat (length b) <= PubsubMaxBatch (config c))
            (batches (world st)).
Proof.
  intros Hmax He.
  destruct (reachable_inv c _ _ He) as ((Hwf & _) & _ & Hsize).
  destruct (Hsize Hmax) as [Hlen Hall].
  rewrite (elems_length _ _ Hwf). split; [done|]. split.
  - intros m s' h' Happ.
    rewrite (elems_length h' s') by (by eapply append_wf).
    rewrite (append_len _ _ _ _ _ _ Happ). lia.
  - eapply Forall_impl; [exact Hall|]. simpl. lia.
Qed.

(** C4: a step that hands a batch to a publish task leaves the loop with
    the nil slice, which is empty and shares no array with any batch; every
    batch handed over so far is backed by an array of its own and still
    holds exactly what it held at the hand-over; and the batches together
    with the open buffer are the serialized events in arrival order, each
    once. *)
Theorem flushed_batch_is_never_reused ls st :
  exec c ls = Some st ->
  Forall (fun sb => ptr sb.1 <> ptr (messages st)
                    /\ elems (heap (world st)) sb.1 = sb.2)
         (attempts (world st))
  /\ NoDup (ptr <$> (attempts (world st)).*1)
  /\ concat (batches (world st)) ++ elems (heap (world st)) (messages st)
     = accepted ls
  /\ forall l st',
       step c st l = Some st' ->
       attempts (world st') = attempts (world st)
       \/ (exists s,
             attempts (world st')
             = attempts (world st) ++ [(s, elems (heap (world st')) s)]
             /\ ptr s <> ptr (messages st'))
           /\ messages st' = nil
           /\ elems (heap (world st')) (messages st') = [].
Proof.
  intros He. destruct (reachable_inv c _ _ He) as ((Hwf & Hatt & Hnd & Hpart) & _).
  split; [|split; [done|split; [done|]]].
  - eapply Forall_impl; [exact Hatt|]. intros sb (a & _ & _ & Hne & Hb). done.
  - intros l st' HS%step_Step.
    destruct HS as [s w event err Hm | s w event buf s' h' Hm Happ Hne
      | s w event buf s' h' Hm Happ Heq | s w t' Hr Hz | s w t' Hr Hnz
      | s w t' Hx | s w k f Hk]; cbn [messages world heap];
      try (left; unfold attempts; cbn [out]; rewrite ?added_PublishTask;
           rewrite ?omap_app;
           rewrite ?omap_publish_actions, ?omap_get_actions by done;
           csimpl; by rewrite ?app_nil_r).
    + right. split; [|done]. exists s'.
      erewrite attempts_app by (cbn [out]; reflexivity). split; [done|].
      destruct (append_is_Some _ _ _ _ _ Happ Hwf) as (a & -> & _). done.
    + right. split; [|done]. exists s.
      erewrite attempts_app by (cbn [out]; reflexivity). split; [done|].
      unfold wf in Hwf. simpl in *. destruct (ptr s); [done | lia].
Qed.

(** C2: when the loop takes the timer's tick, a buffer holding between one
    and [PubsubMaxBatch - 1] messages is handed to one publish attempt,
    exactly as buffered, and the loop does not touch the timer; an empty
    buffer causes no attempt and the loop rearms the timer at once.  The
    buffer holds the serialized events not yet handed over, in arrival
    order. *)
Theorem tick_flushes_what_is_buffered ls st :
  exec c ls = Some st ->
  Timer.C (t (world st)) = true ->
  exists st',
    exec c (ls ++ [LTimer]) = Some st'
    /\ concat (batches (world st)) ++ elems (heap (world st)) (messages st)
       = accepted ls
    /\ (1 <= Z.of_nat (length (elems (heap (world st)) (messages st)))
           <= PubsubMaxBatch (config c) - 1 ->
        batches (world st')
        = batches (world st) ++ [elems (heap (world st)) (messages st)]
        /\ resets (out (world st')) = resets (out (world st)))
    /\ (elems (heap (world st)) (messages st) = [] ->
        batches (world st') = batches (world st)
        /\ resets (out (world st'))
           = resets (out (world st)) ++ [PubsubMaxPublishDelay (config c)]
        /\ Timer.deadline (t (world st'))
           = Some (PubsubMaxPublishDelay (config c))).
Proof.
  intros He HC.
  destruct (reachable_inv c _ _ He) as ((Hwf & _ & _ & Hpart) & _).
  pose proof (elems_length _ _ Hwf) as Hlen.
  assert (exists st', step c st LTimer = Some st') as [st' Hs].
  { unfold step, Timer.recv. rewrite HC. eauto. }
  exists st'. rewrite exec_snoc, He. split; [done|]. split; [done|].
  apply step_Step in Hs. destruct st as [s w]. cbn [messages world] in *.
  inversion Hs as [ | | | ? ? t' Hr Hz | ? ? t' Hr Hnz | | ]; subst;
    cbn [world out t].
  - split; [rewrite Hlen; lia|]. intros _.
    erewrite batches_app by (cbn [out]; reflexivity).
    unfold resets. rewrite omap_app. csimpl. by rewrite app_nil_r.
  - split.
    + intros _. erewrite batches_app by (cbn [out]; reflexivity).
      unfold resets. rewrite omap_app. csimpl. by rewrite app_nil_r.
    + intros Hnil. rewrite Hnil in Hlen. simpl in Hlen. done.
Qed.

(** C6: no step of the dispatch loop that hands a batch over touches the
    timer: an event, the one that fills the batch included, leaves the timer
    as it is, and so does a tick taken with a non-empty buffer (after the
    tick itself has been received); the reset happens when the publish task
    runs, once, and sets the timer to [PubsubMaxPublishDelay]. *)
Theorem flush_is_rearmed_by_its_task ls st :
  exec c ls = Some st ->
  (forall event st',
     step c st (LEvent event) = Some st' ->
     t (world st') = t (world st)
     /\ resets (out (world st')) = resets (out (world st)))
  /\ (forall st',
       step c st LTimer = Some st' ->
       len (messages st) <> 0%nat ->
       Timer.deadline (t (world st')) = Timer.deadline (t (world st))
       /\ resets (out (world st')) = resets (out (world st)))
  /\ (forall k st',
       step c st (LTask k) = Some st' ->
       t (world st')
       = Timer.Reset (PubsubMaxPublishDelay (config c)) (t (world st))
       /\ Timer.deadline (t (world st'))
          = Some (PubsubMaxPublishDelay (config c))
       /\ resets (out (world st'))
          = resets (out (world st)) ++ [PubsubMaxPublishDelay (config c)]).
Proof.
  intros He. destruct (reachable_inv c _ _ He) as (_ & (_ & Hd & _) & _).
  destruct st as [s w]. cbn [messages world] in *. split; [|split].
  - intros event st' HS%step_Step.
    inversion HS; subst; cbn [world t out]; unfold resets;
      rewrite ?omap_app; csimpl; by rewrite ?app_nil_r.
  - intros st' HS%step_Step Hnz.
    inversion HS as [ | | | | ? ? t' Hr _ | | ]; subst; [done|].
    cbn [world t out]. unfold resets. rewrite omap_app. csimpl.
    rewrite app_nil_r. split; [|done].
    unfold Timer.recv in Hr. destruct (Timer.C (t w)); by simplify_eq.
  - intros k st' HS%step_Step.
    inversion HS as [ | | | | | | ? ? ? f Hk]; subst.
    rewrite Forall_forall in Hd.
    rewrite <- (Hd f) by (by eapply list_elem_of_lookup_2).
    cbn [world t out]. split; [done|]. split; [done|].
    unfold resets. rewrite added_PublishTask, !omap_app.
    rewrite omap_publish_actions, omap_get_actions by done. done.
Qed.

(** C5, as the code has it: the timer never has more than one live
    deadline, and it has none from its expiry until it is reset; at every
    point a deadline is live, or a tick waits in the channel, or a publish
    task is outstanding; the resets so far are one for each publish attempt
    whose task has run and one for each tick taken with an empty buffer, all
    to [PubsubMaxPublishDelay]. *)
Theorem timer_rearmed_once_per_flush ls st :
  exec c ls = Some st ->
  (Timer.live (t (world st)) <= 1)%nat
  /\ (Timer.live (t (world st)) = 1%nat
      \/ Timer.C (t (world st)) = true
      \/ pending (world st) <> [])
  /\ (length (resets (out (world st))) + length (pending (world st))
      = length (attempts (world st)) + skipped (out (world st)))%nat
  /\ Forall (fun d => d = PubsubMaxPublishDelay (config c))
            (resets (out (world st)))
  /\ (forall st', step c st LExpire = Some st' ->
        Timer.live (t (world st')) = 0%nat).
Proof.
  intros He. destruct (reachable_inv c _ _ He) as (_ & (Hl & _ & Hr & Hc) & _).
  split; [unfold Timer.live; destruct (Timer.deadline _); lia|].
  split; [done|]. split; [done|]. split; [done|].
  intros st' HS%step_Step. destruct st as [s w].
  inversion HS as [ | | | | | ? ? t' Hx | ]; subst. cbn [world t].
  unfold Timer.expire in Hx. destruct (Timer.deadline (t w)); by simplify_eq.
Qed.

Lemma step_same_but_entry a st1 st2 l st1' :
  same_but_entry a st1 st2 ->
  step c st1 l = Some st1' ->
  exists st2', step c st2 l = Some st2' /\ same_but_entry a st1' st2'.
Proof.
  destruct st1 as [s1 [h1 t1 p1 g1 b1 n1 o1]], st2 as [s2 [h2 t2 p2 g2 b2 n2 o2]].
  unfold same_but_entry. cbn [messages world heap t pending waiting
    submitted publishCounter out].
  intros (-> & -> & -> & -> & -> & -> & -> & pre & post & -> & ->)
    HS%step_Step.
  inversion HS as [? ? ? err Hm | ? ? ? buf s' h' Hm Happ Hne
    | ? ? ? buf s' h' Hm Happ Heq | ? ? t' Hr Hz | ? ? t' Hr Hnz
    | ? ? t' Hx | ? ? ? f Hk]; subst;
    cbn [heap t pending waiting submitted publishCounter out] in *.
  - eexists. split; [apply Step_step; by eapply Step_drop|].
    cbn [messages world heap t pending waiting submitted publishCounter out].
    split_and!; try done. exists pre, (post ++ [Log Error "Error Marshaling event" [FError err]]).
    by rewrite <- !app_assoc.
  - eexists. split; [apply Step_step; by eapply Step_append|].
    cbn [messages world heap t pending waiting submitted publishCounter out].
    split_and!; try done. by exists pre, post.
  - eexists. split; [apply Step_step; by eapply Step_full|].
    cbn [messages world heap t pending waiting submitted publishCounter out].
    split_and!; try done. eexists pre, (post ++ _).
    rewrite <- !app_assoc. split; reflexivity.
  - eexists. split; [apply Step_step; by eapply Step_skip|].
    cbn [messages world heap t pending waiting submitted publishCounter out].
    split_and!; try done. eexists pre, (post ++ _).
    rewrite <- !app_assoc. split; reflexivity.
  - eexists. split; [apply Step_step; by eapply Step_tick|].
    cbn [messages world heap t pending waiting submitted publishCounter out].
    split_and!; try done. eexists pre, (post ++ _).
    rewrite <- !app_assoc. split; reflexivity.
  - eexists. split; [apply Step_step; by eapply Step_expire|].
    cbn [messages world heap t pending waiting submitted publishCounter out].
    split_and!; try done. by exists pre, post.
  - eexists. split; [apply Step_step; by eapply Step_task|].
    rewrite !added_PublishTask.
    cbn [messages world heap t pending waiting submitted publishCounter out].
    split_and!; try done. eexists pre, (post ++ _).
    rewrite <- !app_assoc. split; reflexivity.
Qed.

Lemma run_same_but_entry a ls st1 st2 st1' :
  same_but_entry a st1 st2 ->
  run c st1 ls = Some st1' ->
  exists st2', run c st2 ls = Some st2' /\ same_but_entry a st1' st2'.
Proof.
  revert st1 st2. induction ls as [|l ls IH]; intros st1 st2 HR; simpl.
  - intros [= <-]. eauto.
  - destruct (step c st1 l) as [st1''|] eqn:Hs; [|done]. intros Hrun.
    destruct (step_same_but_entry _ _ _ _ _ HR Hs) as (st2'' & -> & HR').
    eauto.
Qed.

Lemma marshal_errors_app l1 l2 :
  marshal_errors (l1 ++ l2) = marshal_errors l1 ++ marshal_errors l2.
Proof. apply omap_app. Qed.

Lemma marshal_errors_get_actions rs : marshal_errors (get_actions rs) = [].
Proof.
  unfold get_actions. induction rs as [|r rs IHr]; [done|].
  rewrite bind_cons, marshal_errors_app, IHr.
  unfold marshal_errors. csimpl. by destruct ((Get r).2).
Qed.

(** The log holds one serialization error for each event that could not be
    serialized, in arrival order. *)
Lemma marshal_errors_rejected ls st :
  exec c ls = Some st -> marshal_errors (out (world st)) = rejected ls.
Proof.
  revert ls st. apply exec_ind.
  - intros s w (_ & _ & ->)%Run_start_spec. done.
  - intros ls st l st' _ IH HS. unfold rejected. rewrite omap_app.
    fold (rejected ls). rewrite <- IH.
    destruct HS as [s w event err Hm | s w event buf s' h' Hm Happ Hne
      | s w event buf s' h' Hm Happ Heq | s w t' Hr Hz | s w t' Hr Hnz
      | s w t' Hx | s w k f Hk]; cbn [world out];
      rewrite ?added_PublishTask, ?marshal_errors_app,
        ?marshal_errors_get_actions;
      unfold marshal_errors at 2;
      rewrite ?omap_publish_actions by done; csimpl; rewrite ?Hm;
      rewrite ?app_nil_r; done.
Qed.

(** C9: an event that cannot be serialized changes nothing but the log.
    The state reached with it among the inputs is the state reached without
    it, apart from one error entry in the log: the same buffer, heap, timer
    and publish attempts.  The log holds one entry for each such event.  With
    a batch size of two, events A, B, C with B failing give one publish
    attempt, holding A and C. *)
Theorem marshal_error_is_isolated ls1 ls2 event err st :
  Marshal event = inr err ->
  exec c (ls1 ++ LEvent event :: ls2) = Some st ->
  (exists st',
     exec c (ls1 ++ ls2) = Some st'
     /\ same_but_entry (Log Error "Error Marshaling event" [FError err]) st st'
     /\ attempts (world st) = attempts (world st'))
  /\ marshal_errors (out (world st))
     = rejected ls1 ++ err :: rejected ls2
  /\ (forall A C a c',
        Marshal A = inl a -> Marshal C = inl c' ->
        PubsubMaxBatch (config c) = 2 ->
        exists st3,
          exec c [LEvent A; LEvent event; LEvent C] = Some st3
          /\ batches (world st3) = [[{| Data := a |}; {| Data := c' |}]]
          /\ marshal_errors (out (world st3)) = [err]).
Proof.
  intros Hm He. split; [|split].
  - unfold exec in *. destruct (Run_start c) as [[s w]|]; [|done].
    rewrite run_app in *. destruct (run c _ ls1) as [[s1 w1]|]; [|done].
    simpl in He. unfold Run_event, lift, bind in He. rewrite Hm in He.
    revert He. go_run. intros He.
    eapply run_same_but_entry in He as (st' & Hrun & HR).
    + exists st'. split; [exact Hrun|]. split; [exact HR|].
      destruct HR as (_ & _ & _ & _ & _ & _ & _ & pre & post & Ho1 & Ho2).
      unfold attempts. rewrite Ho1, Ho2.
      change (pre ++ ?a :: post) with (pre ++ [a] ++ post).
      by rewrite !omap_app.
    + unfold same_but_entry. cbn. split_and!; try done.
      exists (out w1), []. by rewrite app_nil_r.
  - rewrite (marshal_errors_rejected _ _ He). unfold rejected.
    rewrite omap_app. csimpl. by rewrite Hm.
  - intros A C a c' HA HC Hmax.
    assert (Hacc : accepted [LEvent A; LEvent event; LEvent C]
                   = [{| Data := a |}; {| Data := c' |}]).
    { unfold accepted. csimpl. by rewrite HA, Hm, HC. }
    destruct (events_reach_max c [A; event] C c' HC) as (st3 & He3 & Hb & _).
    { change (LEvent <$> [A; event] ++ [C])
        with [LEvent A; LEvent event; LEvent C]. rewrite Hacc, Hmax. done. }
    change (LEvent <$> [A; event] ++ [C])
      with [LEvent A; LEvent event; LEvent C] in *.
    exists st3. split; [done|]. split; [by rewrite Hb, Hacc|].
    rewrite (marshal_errors_rejected _ _ He3). unfold rejected. csimpl.
    by rewrite HA, Hm, HC.
Qed.

End RunClaims.

(** ** Construction *)

Section Construction.

Context `{Env}.

(** What [createTopicIfNotExists] returns, whatever the world it runs in. *)
Lemma createTopicIfNotExists_result projectid name w :
  (createTopicIfNotExists projectid name w).1
  = match NewClient projectid with
    | inr err => (None, Some err)
    | inl client =>
        match Topic_Exists (Client_Topic client name) with
        | (_, Some e) => (Some (Client_Topic client name), Some e)
        | (true, None) => (Some (Client_Topic client name), None)
        | (false, None) => Client_CreateTopic client name
        end
    end.
Proof.
  unfold createTopicIfNotExists. destruct (NewClient projectid) as [cl|e]; [|done].
  destruct (Topic_Exists _) as [[] [e|]]; try done.
  by destruct (Client_CreateTopic cl name) as [th [e|]].
Qed.

(** C10: [NewPublisher] always returns a pointer to a fully built
    [Publisher] (channel, logger, pool, wait group, configuration and id
    set) together with the error of the topic provisioning; when the
    provisioning fails the caller gets both the struct and the error, the
    topic handle being nil or whatever the failed call returned. *)
Theorem NewPublisher_returns_struct_and_error lg bq cfg i w :
  exists p err w',
    NewPublisher lg bq cfg i w = ((Some p, err), w')
    /\ bqEvents p = bq /\ logger p = lg /\ config p = cfg /\ id p = i
    /\ gp p = NewGoPool (MaxPubSubGoroutinesAmount cfg)
                        (MaxPubSubGoroutineIdleDuration cfg)
    /\ wg p = new_WaitGroup
    /\ (forall e, NewClient (ProjectID cfg) = inr e ->
          err = Some e /\ topic p = None)
    /\ (forall cl ok e,
          NewClient (ProjectID cfg) = inl cl ->
          Topic_Exists (Client_Topic cl (Topic cfg)) = (ok, Some e) ->
          err = Some e /\ topic p = Some (Client_Topic cl (Topic cfg)))
    /\ (forall cl th e,
          NewClient (ProjectID cfg) = inl cl ->
          Topic_Exists (Client_Topic cl (Topic cfg)) = (false, None) ->
          Client_CreateTopic cl (Topic cfg) = (th, Some e) ->
          err = Some e /\ topic p = th)
    /\ (forall e, err = Some e ->
          Log Error "Error creating topic" [FError e] ∈ added w w').
Proof.
  unfold NewPublisher, bind at 1 2.
  set (w0 := (zap Debug "Creating a new publisher" [FInt "id" i] w)).
  pose proof (createTopicIfNotExists_result (ProjectID cfg) (Topic cfg) w0.2)
    as Hres.
  assert (Hout : exists acts,
    out (createTopicIfNotExists (ProjectID cfg) (Topic cfg) w0.2).2
    = out w ++ acts).
  { unfold createTopicIfNotExists, w0.
    destruct (NewClient _) as [cl|e]; [|go_run; rewrite <- app_assoc; eauto].
    destruct (Topic_Exists _) as [ok [e|]];
      [go_run; rewrite <- app_assoc; eauto|].
    destruct ok; [go_run; rewrite <- app_assoc; eauto|].
    destruct (Client_CreateTopic _ _) as [th [e|]]; go_run;
      rewrite <- ?app_assoc; eauto. }
  destruct Hout as [acts Hout].
  destruct w0 as [[] w1] eqn:Hw0. cbn [snd] in *.
  destruct (createTopicIfNotExists (ProjectID cfg) (Topic cfg) w1)
    as [[tp err] w2] eqn:Hc. cbn [fst snd] in *.
  destruct err as [e0|]; (eexists _, _, _; split; [go_run; reflexivity|]);
    cbn [bqEvents logger config id gp wg topic]; (split_and!; try done).
  - intros e He. rewrite He in Hres. by simplify_eq.
  - intros cl ok e Hcl Hex. rewrite Hcl, Hex in Hres.
    destruct ok; by simplify_eq.
  - intros cl th e Hcl Hex Hcr. rewrite Hcl, Hex, Hcr in Hres. by simplify_eq.
  - intros e [= <-]. unfold added. cbn [out]. rewrite Hout.
    rewrite <- !app_assoc, drop_app_length. set_solver.
  - intros e He. rewrite He in Hres. by simplify_eq.
  - intros cl ok e Hcl Hex. rewrite Hcl, Hex in Hres.
    destruct ok; by simplify_eq.
  - intros cl th e Hcl Hex Hcr. rewrite Hcl, Hex, Hcr in Hres. by simplify_eq.
Qed.

End Construction.

(** ** The model at work on the sample environment *)

Section Examples.

Import Sample.
Existing Instance env.

(** Batch size 3, events A, B, C with B failing, then the timer: one
    attempt with A and C. *)
Example A_B_C_then_tick :
  batches <$> (world <$> exec (publisher 3)
                 [LEvent A; LEvent B; LEvent C; LExpire; LTimer])
  = Some [[msg "A"; msg "C"]].
Proof. vm_compute. reflexivity. Qed.

(** With a maximum of zero the size test never succeeds: the batch grows
    until the timer flushes it. *)
Example zero_max_never_flushes_by_size :
  exists st,
    exec (publisher 0) [LEvent A; LEvent C] = Some st
    /\ batches (world st) = []
    /\ Slice.len (messages st) = 2%nat.
Proof. eexists. split; [vm_compute; reflexivity|]. done. Qed.

(** A negative maximum makes [Run] panic before the loop. *)
Example negative_max_panics : exec (publisher (-1)) [] = None.
Proof. reflexivity. Qed.

(** C7, counterexample: with a configured maximum of zero the test
    [len(messages) == PubsubMaxBatch] never succeeds after an append, so the
    open batch grows beyond the maximum, and so does the batch the next tick
    hands to a publish task. *)
Lemma batch_exceeds_zero_max :
  exists st st',
    exec (publisher 0) [LEvent A; LEvent C] = Some st
    /\ PubsubMaxBatch (config (publisher 0))
       < Z.of_nat (length (Slice.elems (heap (world st)) (messages st)))
    /\ exec (publisher 0) [LEvent A; LEvent C; LExpire; LTimer] = Some st'
    /\ batches (world st') = [[msg "A"; msg "C"]]
    /\ ~ Forall (fun b => Z.of_nat (length b)
                          <= PubsubMaxBatch (config (publisher 0)))
                (batches (world st')).
Proof.
  eexists. eexists. split; [vm_compute; reflexivity|]. split; [done|].
  split; [vm_compute; reflexivity|]. split; [done|].
  intros Hall. apply Forall_inv in Hall. vm_compute in Hall. by apply Hall.
Qed.

(** C5, counterexample: after a tick has flushed a non-empty buffer the
    timer has no live deadline, and stays so until the publish task has
    run. *)
Lemma timer_idle_while_publishing :
  exists st,
    exec (publisher 2) [LEvent A; LExpire; LTimer] = Some st
    /\ Timer.live (t (world st)) = 0%nat
    /\ Timer.C (t (world st)) = false
    /\ pending (world st) <> [].
Proof. eexists. split; [vm_compute; reflexivity|]. done. Qed.

End Examples.

(** ** The theorems at concrete inputs *)

Section Witnesses.

Import Sample.
Existing Instance env.
Local Abbreviation LEvent := (@LEvent env).
Local Abbreviation LTimer := (@LTimer env).
Local Abbreviation LExpire := (@LExpire env).
Local Abbreviation LTask := (@LTask env).

(** Proves the first conjunct, a run of the model, by evaluation and keeps
    it as [He]. *)
Ltac run_exec He :=
  lazymatch goal with
  | |- ?P /\ _ => assert (He : P) by (vm_compute; reflexivity)
  end.

Lemma size_flush_exactly_at_max_witness :
  0 < PubsubMaxBatch (config (publisher 2))
  /\ Forall2 (fun e b => marshal e = inl b) [A; C]
       [String.list_byte_of_string "A"; String.list_byte_of_string "C"]
  /\ exists st,
       exec (publisher 2) (LEvent <$> [A; C]) = Some st
       /\ (Z.of_nat (length [A; C]) < PubsubMaxBatch (config (publisher 2)) ->
           batches (world st) = [])
       /\ (Z.of_nat (length [A; C]) = PubsubMaxBatch (config (publisher 2)) ->
           batches (world st)
           = [mkMessage <$> [String.list_byte_of_string "A";
                             String.list_byte_of_string "C"]]).
Proof.
  split; [reflexivity|]. split; [repeat constructor|].
  apply (@size_flush_exactly_at_max env (publisher 2) [A; C]);
    [reflexivity | repeat constructor].
Defined.

Lemma tick_flushes_what_is_buffered_witness :
  exists st,
    exec (publisher 5) [LEvent A; LEvent C; LExpire] = Some st
    /\ Timer.C (t (world st)) = true
    /\ exists st',
         exec (publisher 5) ([LEvent A; LEvent C; LExpire] ++ [LTimer])
         = Some st'
         /\ batches (world st') = batches (world st) ++ [[msg "A"; msg "C"]].
Proof.
  eexists. run_exec He. split; [exact He|]. split; [reflexivity|].
  destruct (@tick_flushes_what_is_buffered env (publisher 5)
              [LEvent A; LEvent C; LExpire] _ He eq_refl)
    as (st' & He' & _ & Hflush & _).
  exists st'. split; [exact He'|]. apply Hflush. vm_compute.
  split; discriminate.
Defined.

Lemma PublishTask_one_failure_witness :
  submitted (PublishTask task3 world3).2 = [msg "A"; msg "C"; msg "D"]
  /\ publishCounter (PublishTask task3 world3).2 = 3
  /\ exists pre,
       added world3 (PublishTask task3 world3).2
       = publish_actions 0 [msg "A"; msg "C"; msg "D"]
         ++ pre
         ++ [CounterAdd 3;
             Log Info "Published " [FInt64 "Success" 2; FInt64 "Failures" 1];
             TimerReset 100; WgDone; Observe]
       /\ awaited pre = [0; 1; 2]%nat.
Proof.
  apply (@PublishTask_one_failure env task3 world3 1%nat).
  - reflexivity.
  - vm_compute. lia.
  - discriminate.
  - intros [|[|[|j]]] Hj Hne; try reflexivity. done.
Defined.

Lemma flushed_batch_is_never_reused_witness :
  exists st,
    exec (publisher 2) [LEvent A; LEvent C; LEvent A; LTask 0%nat] = Some st
    /\ attempts (world st)
       = [({| Slice.ptr := Some 0%nat; Slice.len := 2; Slice.cap := 2 |},
           [msg "A"; msg "C"])]
    /\ Forall (fun sb => Slice.ptr sb.1 <> Slice.ptr (messages st)
                         /\ Slice.elems (heap (world st)) sb.1 = sb.2)
              (attempts (world st))
    /\ concat (batches (world st))
         ++ Slice.elems (heap (world st)) (messages st)
       = [msg "A"; msg "C"; msg "A"].
Proof.
  eexists. run_exec He. split; [exact He|].
  split; [vm_compute; reflexivity|].
  destruct (@flushed_batch_is_never_reused env (publisher 2)
              [LEvent A; LEvent C; LEvent A; LTask 0%nat] _ He)
    as (Hall & _ & Hpart & _).
  split; [exact Hall | exact Hpart].
Defined.

Lemma timer_rearmed_once_per_flush_witness :
  exists st,
    exec (publisher 2) [LEvent A; LExpire; LTimer] = Some st
    /\ (Timer.live (t (world st)) = 1%nat
        \/ Timer.C (t (world st)) = true
        \/ pending (world st) <> [])
    /\ (length (resets (out (world st))) + length (pending (world st))
        = length (attempts (world st)) + skipped (out (world st)))%nat.
Proof.
  eexists. run_exec He. split; [exact He|].
  destruct (@timer_rearmed_once_per_flush env (publisher 2)
              [LEvent A; LExpire; LTimer] _ He)
    as (_ & Hlive & Hcount & _).
  split; [exact Hlive | exact Hcount].
Defined.

Lemma flush_is_rearmed_by_its_task_witness :
  exists st st',
    exec (publisher 2) [LEvent A; LEvent C] = Some st
    /\ step (publisher 2) st (LTask 0%nat) = Some st'
    /\ Timer.deadline (t (world st')) = Some 100
    /\ resets (out (world st')) = resets (out (world st)) ++ [100].
Proof.
  eexists. eexists. run_exec He. split; [exact He|].
  run_exec Hs. split; [exact Hs|].
  destruct (@flush_is_rearmed_by_its_task env (publisher 2)
              [LEvent A; LEvent C] _ He) as (_ & _ & Htask).
  destruct (Htask 0%nat _ Hs) as (_ & Hd & Hr).
  split; [exact Hd | exact Hr].
Defined.

Lemma batch_never_exceeds_max_witness :
  exists st,
    exec (publisher 2) [LEvent A; LEvent C; LEvent A] = Some st
    /\ Z.of_nat (length (Slice.elems (heap (world st)) (messages st))) < 2
    /\ Forall (fun b => Z.of_nat (length b) <= 2) (batches (world st)).
Proof.
  eexists. run_exec He. split; [exact He|].
  destruct (@batch_never_exceeds_max env (publisher 2)
              [LEvent A; LEvent C; LEvent A] _ eq_refl He)
    as (Hopen & _ & Hall).
  split; [exact Hopen | exact Hall].
Defined.

Lemma marshal_error_is_isolated_witness :
  marshal B = inr "json: unsupported type"%string
  /\ exists st st',
       exec (publisher 2) ([LEvent A] ++ LEvent B :: [LEvent C]) = Some st
       /\ exec (publisher 2) ([LEvent A] ++ [LEvent C]) = Some st'
       /\ attempts (world st) = attempts (world st')
       /\ batches (world st) = [[msg "A"; msg "C"]]
       /\ marshal_errors (out (world st)) = ["json: unsupported type"%string].
Proof.
  split; [reflexivity|]. eexists. eexists. run_exec He. split; [exact He|].
  destruct (@marshal_error_is_isolated env (publisher 2) [LEvent A]
              [LEvent C] B "json: unsupported type" _ eq_refl He)
    as ((st' & He' & _ & Hatt) & Herr & _).
  run_exec He2. split; [exact He2|].
  assert (Hst : Some st' = Some _) by (rewrite <- He'; exact He2).
  injection Hst as ->.
  split; [exact Hatt|]. split; [vm_compute; reflexivity | exact Herr].
Defined.

End Witnesses.

(** * Further properties of the code *)

(** ** Package types: the message of an [Error] *)

Section ErrorMessage.

Import types.
Local Open Scope string_scope.

Lemma digits_no_colon d :
  ~ In ":"%char (list_ascii_of_string (NilEmpty.string_of_uint d)).
Proof.
  induction d; simpl; try tauto;
    intros [Hc | Hin]; try discriminate; tauto.
Qed.

Lemma FormatUint10_no_colon i :
  ~ In ":"%char (list_ascii_of_string (FormatUint10 i)).
Proof.
  unfold FormatUint10, NilZero.string_of_uint.
  destruct (N.to_uint i) eqn:E; try apply (digits_no_colon (_ _)).
  simpl. intros [Hc | []]. discriminate.
Qed.

Lemma FormatUint10_inj i i' : FormatUint10 i = FormatUint10 i' -> i = i'.
Proof.
  unfold FormatUint10. intros E. apply DecimalN.Unsigned.to_uint_inj.
  assert (Hnn : forall n, N.to_uint n <> Decimal.Nil).
  { intros [|p]; [discriminate|]. simpl.
    apply DecimalPos.Unsigned.to_uint_nonnil. }
  pose proof (NilZero.usu _ (Hnn i)) as H1.
  pose proof (NilZero.usu _ (Hnn i')) as H2.
  rewrite E in H1. congruence.
Qed.

Lemma append_cons x a b : String x a ++ b = String x (a ++ b).
Proof. reflexivity. Qed.

Lemma append_empty b : "" ++ b = b.
Proof. reflexivity. Qed.

(** Two texts of the form digits, colon, space, rest are equal only when
    the digits and the rests are. *)
Lemma split_at_colon a b a' b' :
  ~ In ":"%char (list_ascii_of_string a) ->
  ~ In ":"%char (list_ascii_of_string a') ->
  a ++ ": " ++ b = a' ++ ": " ++ b' -> a = a' /\ b = b'.
Proof.
  revert a'. induction a as [|x a IH]; intros [|x' a'] Ha Ha';
    rewrite ?append_cons, ?append_empty; cbn [list_ascii_of_string In] in *.
  - intros [= ->]. done.
  - intros [= <- _]. tauto.
  - intros [= -> _]. tauto.
  - intros [= <- E]. destruct (IH a') as [-> ->]; tauto.
Qed.

Lemma Error_Error_Some err i :
  Index err = Some i ->
  Error_Error err = Some ("item " ++ FormatUint10 i ++ ": " ++ Detail err).
Proof. unfold Error_Error. by intros ->. Qed.

(** X10: [Error()] panics exactly on an [Error] whose [Index] is nil, which
    [NewError] never builds; when it returns, the message determines the
    error: two errors with the same message have the same index and the same
    detail. *)
Theorem Error_message_determines_error e1 e2 s :
  Error_Error e1 = Some s ->
  Error_Error e2 = Some s ->
  e1 = e2
  /\ (forall err, Error_Error err = None <-> Index err = None)
  /\ (forall i d, Error_Error (NewError i d) <> None).
Proof.
  intros H1 H2. split; [|split].
  - destruct e1 as [d1 [i1|]], e2 as [d2 [i2|]]; try discriminate.
    rewrite (Error_Error_Some _ i1) in H1 by done.
    rewrite (Error_Error_Some _ i2) in H2 by done.
    cbn [Detail Index] in *. rewrite <- H2 in H1.
    rewrite !append_cons, !append_empty in H1. injection H1 as E.
    apply split_at_colon in E as [Ei ->]; try apply FormatUint10_no_colon.
    by apply FormatUint10_inj in Ei as ->.
  - intros err. unfold Error_Error. by destruct (Index err).
  - done.
Qed.

End ErrorMessage.

(** ** Accounting in the running system *)

Section AccountingFacts.

Context `{Env}.
Variable c : Publisher.

Import Slice.

(** Splits a step into the paths of [Step]. *)
Ltac step_paths HS :=
  destruct HS as [s w event err Hm | s w event buf s' h' Hm Happ Hne
    | s w event buf s' h' Hm Happ Heq | s w t' Hr Hz | s w t' Hr Hnz
    | s w t' Hx | s w k f Hk];
  cbn [world messages heap t pending waiting submitted publishCounter out]
    in *.

(** X1: the counter of the wait group is the number of publish tasks handed
    to the pool and not yet finished; it is never negative, and it is zero
    exactly when no task is outstanding. *)
Theorem wait_group_counts_outstanding_tasks ls st :
  exec c ls = Some st ->
  waiting (world st) = Z.of_nat (length (pending (world st)))
  /\ 0 <= waiting (world st)
  /\ (waiting (world st) = 0 <-> pending (world st) = []).
Proof.
  intros He.
  assert (Hw : waiting (world st) = Z.of_nat (length (pending (world st)))).
  { revert ls st He. apply exec_ind.
    - intros s w (_ & _ & ->)%Run_start_spec. done.
    - intros ls st l st' _ IH HS. step_paths HS; try done.
      + rewrite length_app. simpl. lia.
      + rewrite length_app. simpl. lia.
      + pose proof (lookup_lt_Some _ _ _ Hk).
        rewrite length_delete by eauto. lia. }
  split; [done|]. split; [lia|]. rewrite Hw.
  destruct (pending (world st)); simpl; split; (done || lia).
Qed.

(** X3: whatever the configuration, no publish attempt is made with an
    empty batch. *)
Theorem no_empty_batch_is_published ls st :
  exec c ls = Some st ->
  Forall (fun b => b <> []) (batches (world st)).
Proof.
  revert ls st. apply exec_ind.
  - intros s w (_ & _ & ->)%Run_start_spec. by apply Forall_nil.
  - intros ls st l st' He IH HS.
    destruct (reachable_inv c _ _ He) as ((Hwf & _) & _).
    step_paths HS; try exact IH;
      try (erewrite batches_app by (cbn [out]; reflexivity);
           rewrite ?added_PublishTask, ?omap_app;
           rewrite ?omap_publish_actions, ?omap_get_actions by done;
           csimpl; by rewrite ?app_nil_r).
    + erewrite batches_app by (cbn [out]; reflexivity). csimpl.
      apply Forall_app. split; [done|]. apply Forall_singleton.
      intros Hnil. apply (f_equal length) in Hnil.
      rewrite (elems_length h' s') in Hnil by (by eapply append_wf).
      rewrite (append_len _ _ _ _ _ _ Happ) in Hnil. done.
    + erewrite batches_app by (cbn [out]; reflexivity). csimpl.
      apply Forall_app. split; [done|]. apply Forall_singleton.
      intros Hnil. apply (f_equal length) in Hnil.
      rewrite (elems_length _ _ Hwf) in Hnil. done.
Qed.

(** X6: the dispatch loop does no broker I/O: a step that is not the run
    of a publish task gives nothing to the topic, awaits no result and
    leaves the publish counter alone. *)
Theorem loop_makes_no_broker_call st l st' :
  step c st l = Some st' ->
  (forall k, l <> LTask k) ->
  submitted (world st') = submitted (world st)
  /\ publishCounter (world st') = publishCounter (world st)
  /\ broker_calls (out (world st')) = broker_calls (out (world st)).
Proof.
  intros HS%step_Step Hl. unfold broker_calls.
  step_paths HS; rewrite ?omap_app; csimpl; rewrite ?app_nil_r; try done.
  by destruct (Hl k).
Qed.

(** X7: with a maximum batch size of zero the size test never succeeds:
    events alone, however many, cause no publish attempt and all stay in
    the buffer. *)
Theorem zero_max_buffers_everything evs :
  PubsubMaxBatch (config c) = 0 ->
  exists st,
    exec c (LEvent <$> evs) = Some st
    /\ batches (world st) = []
    /\ elems (heap (world st)) (messages st) = accepted (LEvent <$> evs).
Proof.
  intros Hmax.
  assert (exists st, exec c (LEvent <$> evs) = Some st
                     /\ batches (world st) = []) as (st & He & Hb).
  { induction evs as [|e evs IH] using rev_ind.
    - destruct (Run_start_ok c) as (s & w & Hs); [lia|].
      exists (mkState s w). unfold exec. simpl. rewrite Hs.
      apply Run_start_spec in Hs as (_ & -> & ->). done.
    - destruct IH as (st & He & Hb). rewrite fmap_app.
      change (LEvent <$> [e]) with [LEvent e]. rewrite exec_snoc, He.
      destruct (step_event_total c st e) as [st' Hs]. exists st'.
      split; [done|]. apply step_Step in Hs. destruct st as [s w].
      inversion Hs as [? ? ? err Hm | ? ? ? buf s' h' Hm Happ Hne
        | ? ? ? buf s' h' Hm Happ Heq | | | | ]; subst; simpl in *.
      + erewrite batches_app by (cbn [out]; reflexivity). by rewrite Hb.
      + done.
      + rewrite (append_len _ _ _ _ _ _ Happ) in Heq. lia. }
  exists st. split; [done|]. split; [done|].
  destruct (reachable_inv c _ _ He) as ((_ & _ & _ & Hpart) & _).
  by rewrite Hb in Hpart.
Qed.

Lemma attempts_same w w' : out w' = out w -> attempts w' = attempts w.
Proof. unfold attempts. by intros ->. Qed.

Lemma concat_delete_Permutation (bs : list (list Message)) k b :
  bs !! k = Some b -> concat bs ≡ₚ b ++ concat (delete k bs).
Proof.
  revert k. induction bs as [|b0 bs IH]; intros [|k]; simpl; try done.
  - by intros [= ->].
  - intros Hk. rewrite (IH _ Hk), !app_assoc.
    by rewrite (Permutation_app_comm b0 b).
Qed.

Lemma inv_conserve_step ls st l st' :
  exec c ls = Some st -> Step c st l st' ->
  inv_conserve st -> inv_conserve st'.
Proof.
  intros He HS (bs & Hp & Hperm). unfold inv_conserve.
  destruct (reachable_inv c _ _ He) as ((_ & Hatt & _) & _).
  step_paths HS.
  - exists bs. erewrite attempts_app, batches_app by (cbn [out]; reflexivity).
    csimpl. by rewrite !app_nil_r.
  - by exists bs.
  - exists (bs ++ [elems h' s']).
    erewrite attempts_app, batches_app by (cbn [out]; reflexivity). csimpl.
    split.
    + apply Forall2_app.
      * eapply Forall2_impl; [exact Hp|]. intros f b Hin. set_solver.
      * constructor; [|constructor]. simpl. set_solver.
    + rewrite !concat_app, Hperm. simpl. by rewrite !app_nil_r, app_assoc.
  - exists bs. erewrite attempts_app, batches_app by (cbn [out]; reflexivity).
    csimpl. by rewrite !app_nil_r.
  - exists (bs ++ [elems (heap w) s]).
    erewrite attempts_app, batches_app by (cbn [out]; reflexivity). csimpl.
    split.
    + apply Forall2_app.
      * eapply Forall2_impl; [exact Hp|]. intros f b Hin. set_solver.
      * constructor; [|constructor]. simpl. set_solver.
    + rewrite !concat_app, Hperm. simpl. by rewrite !app_nil_r, app_assoc.
  - by exists bs.
  - destruct (Forall2_lookup_l _ _ _ _ _ Hp Hk) as (b & Hb & Hin).
    rewrite Forall_forall in Hatt.
    destruct (Hatt _ Hin) as (_ & _ & _ & _ & Helems). simpl in Helems.
    exists (delete k bs).
    erewrite attempts_app, batches_app by (cbn [out]; reflexivity).
    rewrite added_PublishTask, !omap_app.
    rewrite !omap_publish_actions, !omap_get_actions by done. csimpl.
    rewrite !app_nil_r. split; [by apply Forall2_delete|].
    rewrite Hperm, Helems, (concat_delete_Permutation bs k b Hb).
    by rewrite app_assoc.
Qed.

Lemma reachable_conserve ls st : exec c ls = Some st -> inv_conserve st.
Proof.
  revert ls st. apply exec_ind.
  - intros s w (_ & _ & ->)%Run_start_spec. exists []. split; [constructor|].
    done.
  - intros ls st l st' He IH HS. by eapply inv_conserve_step.
Qed.

(** X2: no serialized event is lost or duplicated inside the publisher:
    the messages given to the topic, those held by publish tasks still
    waiting and those in the open buffer are, taken together, exactly the
    serialized events. *)
Theorem serialized_events_are_conserved ls st :
  exec c ls = Some st ->
  accepted ls
  ≡ₚ submitted (world st) ++ concat (pending_batches (world st))
     ++ elems (heap (world st)) (messages st).
Proof.
  intros He. destruct (reachable_conserve _ _ He) as (bs & Hp & Hperm).
  destruct (reachable_inv c _ _ He) as ((_ & Hatt & _ & Hpart) & _).
  assert (pending_batches (world st) = bs) as ->.
  { unfold pending_batches. rewrite Forall_forall in Hatt.
    apply list_eq_Forall2, Forall2_fmap_l.
    eapply Forall2_impl; [exact Hp|]. intros f b Hin.
    by destruct (Hatt _ Hin) as (_ & _ & _ & _ & ?). }
  by rewrite <- Hpart, Hperm, app_assoc.
Qed.


(** X8: while the first batch fills, [Run] allocates nothing: every message
    is stored in the array made before the loop, whose capacity is the
    maximum batch size. *)
Theorem first_batch_fills_the_array_made_at_start evs :
  Z.of_nat (length (accepted (LEvent <$> evs))) < PubsubMaxBatch (config c) ->
  exists st,
    exec c (LEvent <$> evs) = Some st
    /\ length (heap (world st)) = 1%nat
    /\ messages st
       = {| ptr := Some 0%nat;
            len := length (accepted (LEvent <$> evs));
            cap := Z.to_nat (PubsubMaxBatch (config c)) |}.
Proof.
  induction evs as [|e evs IH] using rev_ind.
  - intros Hmax. simpl in Hmax.
    destruct (Run_start_ok c) as (s & w & Hs); [lia|].
    exists (mkState s w). unfold exec. simpl. rewrite Hs.
    apply Run_start_spec in Hs as (_ & -> & ->). done.
  - rewrite fmap_app. change (LEvent <$> [e]) with [LEvent e].
    rewrite accepted_snoc, length_app, accepted_event. intros Hmax.
    destruct IH as (st & He & Hh & Hs); [lia|].
    rewrite exec_snoc, He.
    destruct (step_event_total c st e) as [st' Hst]. exists st'.
    split; [done|]. apply step_Step in Hst. destruct st as [s w].
    simpl in Hh, Hs. subst s.
    inversion Hst as [? ? ? err Hm | ? ? ? buf s' h' Hm Happ Hne
      | ? ? ? buf s' h' Hm Happ Heq | | | | ]; subst; rewrite Hm in *;
      simpl in *.
    + split; [done|]. by rewrite Nat.add_0_r.
    + revert Happ. unfold append. simpl.
      destruct (Nat.ltb_spec (length (accepted (LEvent <$> evs)))
                  (Z.to_nat (PubsubMaxBatch (config c)))); [|lia].
      intros [= <- <-]. rewrite length_insert, Nat.add_1_r. done.
    + rewrite (append_len _ _ _ _ _ _ Happ) in Heq. simpl in Heq. lia.
Qed.

(** X11: the loop takes at most one tick per arming of the timer: the
    ticks taken so far, a tick still waiting in the channel and a live
    deadline together never exceed one, the arming by [NewTimer], plus the
    number of resets. *)
Theorem ticks_are_bounded_by_resets ls st :
  exec c ls = Some st ->
  (ticks_taken ls + (if Timer.C (t (world st)) then 1 else 0)
   + Timer.live (t (world st))
   <= 1 + length (resets (out (world st))))%nat.
Proof.
  revert ls st. apply exec_ind.
  - intros s w (_ & _ & ->)%Run_start_spec. done.
  - intros ls st l st' _ IH HS. unfold ticks_taken, resets in *.
    rewrite omap_app, length_app.
    step_paths HS; rewrite ?added_PublishTask, ?omap_app;
      rewrite ?omap_publish_actions, ?omap_get_actions by done;
      csimpl; rewrite ?length_app; simpl; try lia.
    + unfold Timer.recv in Hr. destruct (Timer.C (t w)); simplify_eq.
      unfold Timer.live in *. simpl in *.
      destruct (Timer.deadline (t w)); lia.
    + unfold Timer.recv in Hr. destruct (Timer.C (t w)); simplify_eq.
      unfold Timer.live in *. simpl in *. lia.
    + unfold Timer.expire in Hx. unfold Timer.live in *.
      destruct (Timer.deadline (t w)); simplify_eq. simpl.
      destruct (Timer.C (t w)); lia.
    + unfold Timer.live in *. simpl.
      destruct (Timer.C (t w)), (Timer.deadline (t w)); lia.
Qed.

End AccountingFacts.

(** ** The outcome report of a publish task *)

Section TaskTally.

Context `{Env}.

Lemma publish_error_logs_get_actions rs :
  publish_error_logs (get_actions rs) = errors rs.
Proof.
  unfold publish_error_logs, get_actions.
  induction rs as [|r rs IH]; [done|].
  rewrite bind_cons, omap_app, IH, errors_cons. csimpl.
  by destruct ((Get r).2).
Qed.

Lemma errors_length rs : (length (errors rs) <= length rs)%nat.
Proof.
  induction rs as [|r rs IH]; [done|]. rewrite errors_cons.
  destruct ((Get r).2); simpl; lia.
Qed.

(** X5: whatever the outcomes, a task over a batch of K messages (K below
    2^63) awaits all K results, logs one error entry for each failed
    publish, and reports as failures the number of those entries and as
    successes the rest of the K. *)
Theorem PublishTask_reports_every_outcome f w :
  Z.of_nat (length (Slice.elems (heap w) (task_messages f))) < 2 ^ 63 ->
  exists pre failed,
    added w (PublishTask f w).2
    = publish_actions (length (submitted w))
        (Slice.elems (heap w) (task_messages f))
      ++ pre
      ++ [CounterAdd
            (Z.of_nat (length (Slice.elems (heap w) (task_messages f))));
          Log Info "Published "
            [FInt64 "Success"
               (Z.of_nat (length (Slice.elems (heap w) (task_messages f)))
                - Z.of_nat (length failed));
             FInt64 "Failures" (Z.of_nat (length failed))];
          TimerReset (task_maxDelay f); WgDone; Observe]
    /\ awaited pre
       = seq (length (submitted w))
             (length (Slice.elems (heap w) (task_messages f)))
    /\ publish_error_logs pre = failed
    /\ failed = errors (awaited pre)
    /\ (length failed
        <= length (Slice.elems (heap w) (task_messages f)))%nat.
Proof.
  intros Hlen. rewrite added_PublishTask.
  set (ms := Slice.elems (heap w) (task_messages f)) in *.
  set (rs := seq (length (submitted w)) (length ms)).
  pose proof (errors_length rs) as Hle.
  assert (@length PublishResult rs = length ms) as Hrs by apply length_seq.
  exists (get_actions rs), (errors rs).
  rewrite (incr64_small (length ms) 0) by lia.
  rewrite (incr64_small (length (errors rs)) 0) by lia. rewrite !Z.add_0_l.
  rewrite wrap64_small by lia. rewrite <- app_assoc.
  split; [done|]. rewrite awaited_get_actions.
  split; [done|]. split; [apply publish_error_logs_get_actions|].
  split; [done | lia].
Qed.

End TaskTally.

(** ** What the constructor logs *)

Section ConstructionLog.

Context `{Env}.

(** X9: [NewPublisher] writes a log entry of level Error exactly when it
    returns an error; a successful construction logs none. *)
Theorem NewPublisher_logs_error_iff_it_fails lg bq cfg i w :
  (NewPublisher lg bq cfg i w).1.2 = None
  <-> error_entries (added w (NewPublisher lg bq cfg i w).2) = [].
Proof.
  unfold NewPublisher, createTopicIfNotExists, bind at 1 2 3 4.
  destruct (NewClient (ProjectID cfg)) as [cl|e].
  2:{ go_run. erewrite added_app
        by (cbn [out]; rewrite <- !app_assoc; reflexivity). done. }
  destruct (Topic_Exists _) as [ok [e|]].
  { go_run. erewrite added_app
      by (cbn [out]; rewrite <- !app_assoc; reflexivity). done. }
  destruct ok.
  { go_run. erewrite added_app
      by (cbn [out]; rewrite <- !app_assoc; reflexivity). done. }
  destruct (Client_CreateTopic cl (Topic cfg)) as [th [e|]];
    go_run; erewrite added_app
      by (cbn [out]; rewrite <- !app_assoc; reflexivity); done.
Qed.

End ConstructionLog.

(** ** The further properties at concrete inputs *)

Section MoreWitnesses.

Import Sample.
Existing Instance env.
Local Abbreviation LEvent := (@LEvent env).
Local Abbreviation LTimer := (@LTimer env).
Local Abbreviation LExpire := (@LExpire env).
Local Abbreviation LTask := (@LTask env).

Ltac run_exec He :=
  lazymatch goal with
  | |- ?P /\ _ => assert (He : P) by (vm_compute; reflexivity)
  end.

Lemma wait_group_counts_outstanding_tasks_witness :
  exists st,
    exec (publisher 1) [LEvent A; LEvent C; LTask 1%nat] = Some st
    /\ waiting (world st) = 1
    /\ waiting (world st) = Z.of_nat (length (pending (world st))).
Proof.
  eexists. run_exec He. split; [exact He|]. split; [reflexivity|].
  apply (@wait_group_counts_outstanding_tasks env (publisher 1) _ _ He).
Defined.

Lemma serialized_events_are_conserved_witness :
  exists st,
    exec (publisher 2)
      [LEvent A; LEvent C; LEvent A; LEvent B; LEvent C; LEvent A;
       LTask 1%nat] = Some st
    /\ accepted [LEvent A; LEvent C; LEvent A; LEvent B; LEvent C; LEvent A;
                 LTask 1%nat]
       ≡ₚ submitted (world st) ++ concat (pending_batches (world st))
          ++ Slice.elems (heap (world st)) (messages st).
Proof.
  eexists. run_exec He. split; [exact He|].
  apply (@serialized_events_are_conserved env (publisher 2) _ _ He).
Defined.

Lemma no_empty_batch_is_published_witness :
  exists st,
    exec (publisher 0) [LEvent A; LExpire; LTimer; LTask 0%nat; LExpire; LTimer]
    = Some st
    /\ batches (world st) = [[msg "A"]]
    /\ Forall (fun b => b <> []) (batches (world st)).
Proof.
  eexists. run_exec He. split; [exact He|]. split; [reflexivity|].
  apply (@no_empty_batch_is_published env (publisher 0) _ _ He).
Defined.


Lemma PublishTask_reports_every_outcome_witness :
  exists pre failed,
    added world3 (PublishTask task3 world3).2
    = publish_actions 0 [msg "A"; msg "C"; msg "D"]
      ++ pre
      ++ [CounterAdd 3;
          Log Info "Published "
            [FInt64 "Success" (3 - Z.of_nat (length failed));
             FInt64 "Failures" (Z.of_nat (length failed))];
          TimerReset 100; WgDone; Observe]
    /\ awaited pre = [0; 1; 2]%nat
    /\ publish_error_logs pre = failed
    /\ failed = errors (awaited pre)
    /\ (length failed <= 3)%nat.
Proof.
  apply (@PublishTask_reports_every_outcome env task3 world3). reflexivity.
Defined.

Lemma loop_makes_no_broker_call_witness :
  exists st st',
    exec (publisher 2) [LEvent A] = Some st
    /\ step (publisher 2) st (LEvent C) = Some st'
    /\ pending (world st') <> []
    /\ submitted (world st') = submitted (world st)
    /\ publishCounter (world st') = publishCounter (world st)
    /\ broker_calls (out (world st')) = broker_calls (out (world st)).
Proof.
  eexists. eexists. run_exec He. split; [exact He|].
  run_exec Hs. split; [exact Hs|]. split; [discriminate|].
  apply (@loop_makes_no_broker_call env (publisher 2) _ _ _ Hs).
  intros k. discriminate.
Defined.

Lemma zero_max_buffers_everything_witness :
  PubsubMaxBatch (config (publisher 0)) = 0
  /\ exists st,
       exec (publisher 0) (LEvent <$> [A; B; C; A]) = Some st
       /\ batches (world st) = []
       /\ Slice.elems (heap (world st)) (messages st)
          = accepted (LEvent <$> [A; B; C; A]).
Proof.
  split; [reflexivity|].
  apply (@zero_max_buffers_everything env (publisher 0) [A; B; C; A]).
  reflexivity.
Defined.

Lemma first_batch_fills_the_array_made_at_start_witness :
  exists st,
    exec (publisher 3) (LEvent <$> [A; B; C]) = Some st
    /\ length (heap (world st)) = 1%nat
    /\ messages st
       = {| Slice.ptr := Some 0%nat;
            Slice.len := length (accepted (LEvent <$> [A; B; C]));
            Slice.cap := Z.to_nat (PubsubMaxBatch (config (publisher 3))) |}.
Proof.
  apply (@first_batch_fills_the_array_made_at_start env (publisher 3)
           [A; B; C]).
  vm_compute. reflexivity.
Defined.

Lemma Error_message_determines_error_witness :
  types.Error_Error (types.NewError 42 "bad event")
  = Some "item 42: bad event"%string
  /\ types.NewError 42 "bad event"
     = {| types.Detail := "bad event"; types.Index := Some 42%N |}.
Proof.
  split; [reflexivity|].
  destruct (Error_message_determines_error
              (types.NewError 42 "bad event")
              {| types.Detail := "bad event"; types.Index := Some 42%N |}
              "item 42: bad event" eq_refl eq_refl) as [Heq _].
  exact Heq.
Defined.

Lemma ticks_are_bounded_by_resets_witness :
  exists st,
    exec (publisher 2) [LExpire; LTimer; LEvent A; LExpire; LTimer] = Some st
    /\ (ticks_taken [LExpire; LTimer; LEvent A; LExpire; LTimer]
        + (if Timer.C (t (world st)) then 1 else 0)
        + Timer.live (t (world st))
        <= 1 + length (resets (out (world st))))%nat.
Proof.
  eexists. run_exec He. split; [exact He|].
  apply (@ticks_are_bounded_by_resets env (publisher 2) _ _ He).
Defined.

End MoreWitnesses.
